(** * A shallow embedding of the broken-link web crawler (src/index.js)

    The crawler is one sequential control loop: a FIFO queue of pending
    links ([synLinks]), the array of already explored URLs
    ([exploredUrls]), a processed-link counter ([count]) and a report.
    Everything the loop asks of the outside (the browser, the screenshot
    sink, the report object) is answered by a [World] of oracle functions,
    so that every statement below holds for every behaviour of these
    collaborators.

    Conventions.
    - JavaScript strings are Rocq [string]s (8-bit characters stand for the
      UTF-16 code units; [trim] strips the ASCII white space).
    - Counters and the two configured thresholds are [nat]; the timeout is
      a number of milliseconds in [Z]; an HTTP status is a [StatusVal]
      (either [undefined] or an integer).
    - A thrown value is represented by its rendering as a string (what
      [error.toString()] and ['' + error] produce).
    - The options object handed to [page.goto] is a finite map from property
      names to values. *)

From Stdlib Require Import ZArith Ascii.
From stdpp Require Import gmap strings list fin_maps pretty.

Local Open Scope Z_scope.
Local Open Scope nat_scope.
Local Open Scope stdpp_scope.

(** ** JavaScript string and array primitives used by the source *)

Module Js.

(** [s.startsWith(p)] *)
Definition startsWith (s p : string) : bool := String.prefix p s.

(** [s.includes(sub)]: [sub] occurs somewhere in [s]. *)
Fixpoint includes (s sub : string) : bool :=
  String.prefix sub s ||
  match s with
  | EmptyString => false
  | String _ s' => includes s' sub
  end.

Fixpoint trimStart (s : string) : string :=
  match s with
  | String c s' => if Ascii.is_space c then trimStart s' else s
  | EmptyString => EmptyString
  end.

(** [s.trim()] *)
Definition trim (s : string) : string :=
  String.rev (trimStart (String.rev (trimStart s))).

(** [arr.includes(x)] on an array of strings. *)
Definition arrayIncludes (arr : list string) (x : string) : bool :=
  bool_decide (x ∈ arr).

(** Truthiness of a string: only the empty string is falsy. *)
Definition truthyStr (s : string) : bool := negb (String.eqb s "").

(** A value that may be [null]/[undefined], as rendered by [+] on
    strings. *)
Definition showNullable (o : option string) : string :=
  match o with Some s => s | None => "null" end.

End Js.

(** ** Configuration: the constants at the head of src/index.js *)

Inductive WaitCondition := networkidle0 | networkidle2 | domcontentloaded.

Definition waitConditionName (c : WaitCondition) : string :=
  match c with
  | networkidle0 => "networkidle0"
  | networkidle2 => "networkidle2"
  | domcontentloaded => "domcontentloaded"
  end.

Record Config := {
  URL_LIST : list string;
  MUST_INCLUDE_DOMAIN : bool;
  DOMAIN : string;
  MAX_NUM_LINKS_TO_FOLLOW : nat;
  NUM_LINKS_TO_RELAUNCH_BROWSER : nat;
  TIMEOUT : Z;
  NETWORK_WAIT_CONDITION : WaitCondition;
  CAPTURE_SOURCE_PAGE_SCREENSHOT : bool;
  CAPTURE_DESTINATION_PAGE_SCREENSHOT_ON_SUCCESS : bool;
  CAPTURE_DESTINATION_PAGE_SCREENSHOT_ON_FAILURE : bool;
  ANNOTATION_BORDER_COLOR : string
}.

(** The values written in the source file. *)
Definition sourceConfig : Config := {|
  URL_LIST := ["https://www.mydomain.com/"];
  MUST_INCLUDE_DOMAIN := true;
  DOMAIN := "mydomain.com";
  MAX_NUM_LINKS_TO_FOLLOW := 750;
  NUM_LINKS_TO_RELAUNCH_BROWSER := 5;
  TIMEOUT := 15000%Z;
  NETWORK_WAIT_CONDITION := domcontentloaded;
  CAPTURE_SOURCE_PAGE_SCREENSHOT := false;
  CAPTURE_DESTINATION_PAGE_SCREENSHOT_ON_SUCCESS := false;
  CAPTURE_DESTINATION_PAGE_SCREENSHOT_ON_FAILURE := false;
  ANNOTATION_BORDER_COLOR := "3px solid #e67e22"
|}.

(** ** Links and the report *)

(** The status carried by a response: [response.status()]. *)
Inductive StatusVal :=
| SUndefined
| SNum (z : Z).

Definition statusTruthy (s : StatusVal) : bool :=
  match s with
  | SUndefined => false
  | SNum z => negb (z =? 0)%Z
  end.

(** [status < 400]; [undefined < 400] is [false] (NaN comparison). *)
Definition statusBelow400 (s : StatusVal) : bool :=
  match s with
  | SUndefined => false
  | SNum z => (z <? 400)%Z
  end.

(** The rendering of a status inside a string concatenation. *)
Definition showStatus (s : StatusVal) : string :=
  match s with
  | SUndefined => "undefined"
  | SNum z => pretty z
  end.

(** Modelled from the spec: the [SyntheticsLink] class of the Synthetics
    runtime, which is required by the source but is not part of the
    repository.  A link is a record of the fields of the data model (url,
    parentUrl, anchorText, statusCode, statusText, failureReason,
    screenshots); each [withX] builder sets field [X] and leaves the others
    as they are; [addScreenshotResult] appends to the screenshots. An unset
    field is [None]; a screenshot result is [None] when it is [undefined]. *)
Record SyntheticsLink := {
  url : string;
  parentUrl : option string;
  text : option string;
  statusCode : option StatusVal;
  statusText : option string;
  failureReason : option string;
  screenshots : list (option string)
}.

Definition newSyntheticsLink (u : string) : SyntheticsLink :=
  {| url := u; parentUrl := None; text := None; statusCode := None;
     statusText := None; failureReason := None; screenshots := [] |}.

Definition getUrl (l : SyntheticsLink) : string := url l.

Definition withParentUrl (p : string) (l : SyntheticsLink) : SyntheticsLink :=
  {| url := url l; parentUrl := Some p; text := text l;
     statusCode := statusCode l; statusText := statusText l;
     failureReason := failureReason l; screenshots := screenshots l |}.

Definition withText (t : string) (l : SyntheticsLink) : SyntheticsLink :=
  {| url := url l; parentUrl := parentUrl l; text := Some t;
     statusCode := statusCode l; statusText := statusText l;
     failureReason := failureReason l; screenshots := screenshots l |}.

Definition withStatusCode (c : StatusVal) (l : SyntheticsLink) : SyntheticsLink :=
  {| url := url l; parentUrl := parentUrl l; text := text l;
     statusCode := Some c; statusText := statusText l;
     failureReason := failureReason l; screenshots := screenshots l |}.

Definition withStatusText (t : string) (l : SyntheticsLink) : SyntheticsLink :=
  {| url := url l; parentUrl := parentUrl l; text := text l;
     statusCode := statusCode l; statusText := Some t;
     failureReason := failureReason l; screenshots := screenshots l |}.

Definition withFailureReason (r : string) (l : SyntheticsLink) : SyntheticsLink :=
  {| url := url l; parentUrl := parentUrl l; text := text l;
     statusCode := statusCode l; statusText := statusText l;
     failureReason := Some r; screenshots := screenshots l |}.

Definition addScreenshotResult (r : option string) (l : SyntheticsLink)
  : SyntheticsLink :=
  {| url := url l; parentUrl := parentUrl l; text := text l;
     statusCode := statusCode l; statusText := statusText l;
     failureReason := failureReason l; screenshots := screenshots l ++ [r] |}.

(** Modelled from the spec: the [BrokenLinkCheckerReport] class of the
    Synthetics runtime, not part of the repository.  The report is the
    append-only sequence of recorded links; the number of links checked is
    its length, and the number of broken links is the number of entries with
    a non-empty failureReason. *)
Record BrokenLinkCheckerReport := { entries : list SyntheticsLink }.

Definition newReport : BrokenLinkCheckerReport := {| entries := [] |}.

Definition addLink (l : SyntheticsLink) (r : BrokenLinkCheckerReport)
  : BrokenLinkCheckerReport :=
  {| entries := entries r ++ [l] |}.

Definition hasFailureReason (l : SyntheticsLink) : bool :=
  match failureReason l with
  | Some s => Js.truthyStr s
  | None => false
  end.

Definition getTotalLinksChecked (r : BrokenLinkCheckerReport) : nat :=
  length (entries r).

Definition getTotalBrokenLinks (r : BrokenLinkCheckerReport) : nat :=
  length (filter (λ l, hasFailureReason l = true) (entries r)).

(** ** Thrown values

    A computation either returns or throws; a thrown value is kept as its
    string rendering. *)

Inductive Exc (A : Type) :=
| Ok (a : A)
| Throw (e : string).
Arguments Ok {A} a.
Arguments Throw {A} e.

Definition bindExc {A B} (m : Exc A) (k : A → Exc B) : Exc B :=
  match m with
  | Ok a => k a
  | Throw e => Throw e
  end.

Notation "x <-! m ;; k" := (bindExc m (λ x, k))
  (at level 100, m at next level, right associativity).

(** [try { return m } catch (error) { }]: the value, or [undefined]. *)
Definition swallow {A} (m : Exc A) : option A :=
  match m with
  | Ok a => Some a
  | Throw _ => None
  end.

(** ** The request-interception handler (lines 234-241) *)

Record Request := { resourceType : string; requestUrl : string }.

Inductive RequestAction := RequestContinue | RequestAbort.

Definition onRequest (cfg : Config) (request : Request) : RequestAction :=
  if String.eqb (resourceType request) "document" then
    if MUST_INCLUDE_DOMAIN cfg && Js.includes (requestUrl request) (DOMAIN cfg)
    then RequestContinue
    else RequestContinue
  else RequestAbort.

(** ** The options object of a navigation (lines 184 and 243-246)

    [{ waitUntil: ['load', NETWORK_WAIT_CONDITION], TIMEOUT }] is an object
    with the two properties [waitUntil] and [TIMEOUT] (shorthand property:
    the name of the property is the name of the variable). *)

Inductive OptVal :=
| OStrings (l : list string)
| ONum (z : Z).

Definition navigationOptions (cfg : Config) : gmap string OptVal :=
  {[ "waitUntil" := OStrings ["load"; waitConditionName (NETWORK_WAIT_CONDITION cfg)];
     "TIMEOUT" := ONum (TIMEOUT cfg) ]}.

(** ** Reset or relaunch (lines 218-224) *)

Inductive SessionAction :=
| Relaunch      (* synthetics.close(); synthetics.launch(); getPage() *)
| ResetPage     (* resetPage(page) *)
| UseAsIs.      (* neither *)

Global Instance SessionAction_eq_dec : EqDecision SessionAction.
Proof. solve_decision. Defined.

(** [count % n == 0]; the remainder by zero is NaN, which is not [== 0]. *)
Definition remIsZero (count n : nat) : bool :=
  match n with
  | 0 => false
  | S _ => count mod n =? 0
  end.

Definition sessionAction (cfg : Config) (count : nat) : SessionAction :=
  if remIsZero count (NUM_LINKS_TO_RELAUNCH_BROWSER cfg)
     && negb (count =? MAX_NUM_LINKS_TO_FOLLOW cfg)
  then Relaunch
  else if negb (count =? 1) then ResetPage
  else UseAsIs.

(** ** getFileName (lines 165-174) *)

Module FileName.

(** [pathname.replace(/\/$/, '')] *)
Definition stripTrailingSlash (s : string) : string :=
  match String.rev s with
  | String "/"%char r => String.rev r
  | _ => s
  end.

(** [pathname.split('/').pop()]: what follows the last slash. *)
Fixpoint lastSegmentFrom (cur s : string) : string :=
  match s with
  | EmptyString => cur
  | String c s' =>
      if Ascii.eqb c "/" then lastSegmentFrom "" s'
      else lastSegmentFrom (cur +:+ String c "") s'
  end.

Definition lastSegment (s : string) : string := lastSegmentFrom "" s.

(** The characters kept by [/[^a-zA-Z0-9-_.!*'()]+/g]. *)
Definition allowed (c : ascii) : bool :=
  let n := nat_of_ascii c in
  ((97 <=? n) && (n <=? 122)) || ((65 <=? n) && (n <=? 90))
  || ((48 <=? n) && (n <=? 57))
  || bool_decide (c ∈ ["-"; "_"; "."; "!"; "*"; "'"; "("; ")"]%char).

Fixpoint keepAllowed (s : string) : string :=
  match s with
  | EmptyString => EmptyString
  | String c s' =>
      if allowed c then String c (keepAllowed s') else keepAllowed s'
  end.

End FileName.

(** [pathnameOf url] is [new URL(url).pathname]; the constructor throws on
    a string that is not a URL. *)
Definition getFileName (pathnameOf : string → Exc string) (url : string)
  : Exc string :=
  if negb (Js.truthyStr url) then Ok "loaded"
  else
    pathname0 <-! pathnameOf url ;;
    let pathname := FileName.stripTrailingSlash pathname0 in
    let fileName :=
      if Js.truthyStr pathname then FileName.lastSegment pathname else "index" in
    Ok (FileName.keepAllowed fileName).

(** ** The collaborators

    The browser, the screenshot sink and the report object are outside the
    program.  A [World] answers every call the crawler makes; calls made
    while the [k]-th link is being processed are indexed by [k], so the
    answer may depend on everything that happened before. *)

Record Response := { status : StatusVal; responseStatusText : string }.

(** The outcome of [await page.goto(nav_url, ...)] together with the
    statements before it in the same [try] block: it throws, or resolves
    with a response or with [null]. *)
Inductive NavOutcome :=
| NavThrows (e : string)
| NavResolves (r : option Response).

(** An anchor of the loaded document: [element.href] and [element.text]. *)
Record Anchor := { href : string; anchorText : string }.

(** What [page.evaluate] meets at index [i] of the anchors: an evaluation
    that throws, or the element, together with the outcome of the later
    evaluation that puts its border back (lines 122-130). A throw of
    [page.evaluateHandle] or of the evaluation of the number of anchors
    (lines 76-80) is a throw at index 0. *)
Inductive DomItem :=
| DomAnchor (a : Anchor) (restoreBorder : Exc unit)
| DomEvalThrows (e : string).

Record World := {
  (* the first synthetics.getPage(), line 201 *)
  firstPage : Exc unit;
  (* new URL(url).pathname *)
  urlPathname : string → Exc string;
  (* synthetics.close(); synthetics.launch(); synthetics.getPage() *)
  relaunchBrowser : nat → Exc unit;
  (* page.goto('about:blank', ...) *)
  gotoBlank : nat → Exc unit;
  (* page.goto(nav_url, ...) *)
  gotoUrl : nat → string → NavOutcome;
  (* the anchors of the page loaded for link k, as seen by page.evaluate *)
  pageAnchors : nat → list DomItem;
  (* synthetics.takeScreenshot(fileName, suffix) *)
  syntheticsTakeScreenshot : nat → string → string → Exc string;
  (* whether brokenLinkCheckerReport.addLink throws *)
  reportAddLinkThrows : nat → bool
}.

(** The browser calls the crawler issues, in order. *)
Inductive Event :=
| EvRelaunch
| EvReset (opts : gmap string OptVal)
| EvGoto (nav_url : string) (opts : gmap string OptVal) (out : NavOutcome).

(** The variables of [webCrawlerController] that live across iterations.
    [canaryError] stays [null] until the loop is over. *)
Record State := {
  exploredUrls : list string;
  synLinks : list SyntheticsLink;
  count : nat;
  brokenLinkError : option string;
  brokenLinkCheckerReport : BrokenLinkCheckerReport;
  trace : list Event
}.

Section Crawler.

Variable cfg : Config.
Variable w : World.

(** *** takeScreenshot (lines 150-156) *)
Definition takeScreenshot (k : nat) (fileName suffix : string) : option string :=
  swallow (syntheticsTakeScreenshot w k fileName suffix).

(** *** resetPage (lines 182-188): the failure of the navigation is
    swallowed, so only the call is recorded. *)
Definition resetPage (k : nat) : list Event :=
  let _ := swallow (gotoBlank w k) in
  [EvReset (navigationOptions cfg)].

(** *** grabLinks (lines 73-141) *)

(** The condition for grabbing a link (lines 89-94), on the trimmed href. *)
Definition grabCondition (exploredUrls : list string) (url : string) : bool :=
  (0 <? String.length url)
  && negb (Js.arrayIncludes exploredUrls url)
  && (Js.startsWith url "http" || Js.startsWith url "https").

(** What the first [page.evaluate] returns for an anchor: the text and
    the url, or [undefined]. *)
Definition evaluateAnchor (exploredUrls : list string) (a : Anchor)
  : option (string * string) :=
  let url := Js.trim (href a) in
  if grabCondition exploredUrls url then
    let text :=
      if Js.truthyStr (anchorText a) then Js.trim (anchorText a) else "" in
    Some (text, url)
  else None.

(** The source-page screenshot of lines 117-131; [getFileName] is outside
    the [try] of [takeScreenshot] and may throw, and so may the evaluation
    that puts the border back. The annotation itself happens in the page
    and leaves nothing in the crawler. *)
Definition sourcePageScreenshot (k : nat) (url : string) (restoreBorder : Exc unit)
  : Exc (option string) :=
  if CAPTURE_SOURCE_PAGE_SCREENSHOT cfg then
    fileName <-! getFileName (urlPathname w) url ;;
    let sourcePageScreenshotResult := takeScreenshot k fileName "sourcePage" in
    _ <-! restoreBorder ;;
    Ok sourcePageScreenshotResult
  else Ok None.

(** The [for] loop over the anchors.  [exploredUrls] is the caller's array
    and is updated in place, so what was pushed stays pushed when the loop
    throws: the array is returned in both cases. *)
Fixpoint grabLoop (k : nat) (sourceUrl : string) (items : list DomItem)
    (exploredUrls : list string) (grabbedLinks : list SyntheticsLink)
  : list string * Exc (list SyntheticsLink) :=
  match items with
  | [] => (exploredUrls, Ok grabbedLinks)
  | DomEvalThrows e :: _ => (exploredUrls, Throw e)
  | DomAnchor a restoreBorder :: items' =>
      match evaluateAnchor exploredUrls a with
      | Some (text, url) =>
          let exploredUrls := exploredUrls ++ [url] in
          match sourcePageScreenshot k url restoreBorder with
          | Throw e => (exploredUrls, Throw e)
          | Ok sourcePageScreenshotResult =>
              let link :=
                addScreenshotResult sourcePageScreenshotResult
                  (withText text (withParentUrl sourceUrl (newSyntheticsLink url))) in
              let grabbedLinks := grabbedLinks ++ [link] in
              if MAX_NUM_LINKS_TO_FOLLOW cfg <=? length exploredUrls
              then (exploredUrls, Ok grabbedLinks)
              else grabLoop k sourceUrl items' exploredUrls grabbedLinks
          end
      | None => grabLoop k sourceUrl items' exploredUrls grabbedLinks
      end
  end.

Definition grabLinks (k : nat) (sourceUrl : string) (exploredUrls : list string)
  : list string * Exc (list SyntheticsLink) :=
  grabLoop k sourceUrl (pageAnchors w k) exploredUrls [].

(** *** The loop body (lines 208-307) *)

(** Lines 243-254: the navigation and its two immediate failure cases.
    Returns [response], the link and [brokenLinkError]. *)
Definition navigate (nav_url : string) (out : NavOutcome)
    (link : SyntheticsLink) (brokenLinkError : option string)
  : option Response * SyntheticsLink * option string :=
  match out with
  | NavResolves (Some r) => (Some r, link, brokenLinkError)
  | NavResolves None =>
      (None,
       withFailureReason "Received null or undefined response" link,
       Some ("Failed to receive network response for url: " +:+ nav_url))
  | NavThrows e =>
      (None,
       withFailureReason e link,
       Some ("Failed to load url: " +:+ nav_url +:+ ". " +:+ e))
  end.

(** [response && response.status() && response.status() < 400] *)
Definition validStatus (response : option Response) : bool :=
  match response with
  | Some r => statusTruthy (status r) && statusBelow400 (status r)
  | None => false
  end.

(** Lines 259-279. Returns the link and [brokenLinkError]. *)
Definition classify (k : nat) (fileName nav_url : string)
    (response : option Response) (link : SyntheticsLink)
    (brokenLinkError : option string)
  : SyntheticsLink * option string :=
  if validStatus response then
    match response with
    | Some r =>
        let link :=
          withStatusText (responseStatusText r) (withStatusCode (status r) link) in
        let link :=
          if CAPTURE_DESTINATION_PAGE_SCREENSHOT_ON_SUCCESS cfg
          then addScreenshotResult (takeScreenshot k fileName "succeeded") link
          else link in
        (link, brokenLinkError)
    | None => (link, brokenLinkError)
    end
  else
    match response with
    | Some r =>
        let statusString :=
          "Status code: " +:+ showStatus (status r) +:+ " "
          +:+ responseStatusText r in
        let brokenLinkError :=
          Some ("Failed to load url: " +:+ nav_url +:+ ". " +:+ statusString) in
        let link :=
          withFailureReason statusString
            (withStatusText (responseStatusText r)
               (withStatusCode (status r) link)) in
        let link :=
          if CAPTURE_DESTINATION_PAGE_SCREENSHOT_ON_FAILURE cfg
          then addScreenshotResult (takeScreenshot k fileName "failed") link
          else link in
        (link, brokenLinkError)
    | None => (link, brokenLinkError)
    end.

(** Lines 243-279 together: from the outcome of the navigation to the
    classified link. Returns [response], the link and [brokenLinkError]. *)
Definition checkLink (k : nat) (fileName nav_url : string) (out : NavOutcome)
    (link : SyntheticsLink) (brokenLinkError : option string)
  : option Response * SyntheticsLink * option string :=
  let '(response, link, brokenLinkError) :=
    navigate nav_url out link brokenLinkError in
  let '(link, brokenLinkError) :=
    classify k fileName nav_url response link brokenLinkError in
  (response, link, brokenLinkError).

(** Lines 218-224. Only the relaunch can throw. *)
Definition prepareSession (k : nat) : Exc (list Event) :=
  match sessionAction cfg k with
  | Relaunch => _ <-! relaunchBrowser w k ;; Ok [EvRelaunch]
  | ResetPage => Ok (resetPage k)
  | UseAsIs => Ok []
  end.

(** Lines 284-288: a throwing [addLink] leaves the report as it was. *)
Definition recordLink (k : nat) (link : SyntheticsLink)
    (report : BrokenLinkCheckerReport) : BrokenLinkCheckerReport :=
  if reportAddLinkThrows w k then report else addLink link report.

(** Lines 293-307. Returns [exploredUrls] and [synLinks]. *)
Definition grabMore (k : nat) (nav_url : string) (response : option Response)
    (exploredUrls : list string) (synLinks : list SyntheticsLink)
  : list string * list SyntheticsLink :=
  if validStatus response
     && (length exploredUrls <? MAX_NUM_LINKS_TO_FOLLOW cfg) then
    match grabLinks k nav_url exploredUrls with
    | (exploredUrls, Ok moreLinks) =>
        (exploredUrls,
         if 0 <? length moreLinks then synLinks ++ moreLinks else synLinks)
    | (exploredUrls, Throw _) => (exploredUrls, synLinks)
    end
  else (exploredUrls, synLinks).

(** One turn of the [while] loop, after [link = synLinks.shift()]. *)
Definition iteration (st : State) (link : SyntheticsLink)
    (synLinks : list SyntheticsLink) : Exc State :=
  let nav_url := getUrl link in
  fileName <-! getFileName (urlPathname w) nav_url ;;
  let count := S (count st) in
  session <-! prepareSession count ;;
  let out := gotoUrl w count nav_url in
  let '(response, link, brokenLinkError) :=
    checkLink count fileName nav_url out link (brokenLinkError st) in
  let report := recordLink count link (brokenLinkCheckerReport st) in
  let '(exploredUrls, synLinks) :=
    grabMore count nav_url response (exploredUrls st) synLinks in
  Ok {| exploredUrls := exploredUrls;
        synLinks := synLinks;
        count := count;
        brokenLinkError := brokenLinkError;
        brokenLinkCheckerReport := report;
        trace := trace st ++ session
                 ++ [EvGoto nav_url (navigationOptions cfg) out] |}.

(** *** The loop (line 207) *)

Inductive LoopResult :=
| Finished (st : State)     (* the queue is empty *)
| Aborted (e : string)      (* an iteration threw *)
| OutOfFuel.

Fixpoint crawlLoop (fuel : nat) (st : State) : LoopResult :=
  match synLinks st with
  | [] => Finished st
  | link :: rest =>
      match fuel with
      | 0 => OutOfFuel
      | S fuel' =>
          match iteration st link rest with
          | Throw e => Aborted e
          | Ok st' => crawlLoop fuel' st'
          end
      end
  end.

(** *** Setup (lines 195-205) *)
Definition setup : State :=
  {| exploredUrls := URL_LIST cfg;
     synLinks := map newSyntheticsLink (URL_LIST cfg);
     count := 0;
     brokenLinkError := None;
     brokenLinkCheckerReport := newReport;
     trace := [] |}.

(** *** After the loop (lines 310-332) *)

Inductive Outcome :=
| Resolved
| Rejected (thrown : string)
| Unfinished.

(** [synthetics.addReport] sits in a [try] with an empty [catch] and
    [log.info] only writes a line: neither changes what is thrown. *)
Definition verdict (st : State) : Outcome :=
  let canaryError : option string := None in
  let report := brokenLinkCheckerReport st in
  let canaryError :=
    if negb (getTotalBrokenLinks report =? 0) then
      let brokenLinkError :=
        pretty (getTotalBrokenLinks report) +:+ " broken link(s) detected. "
        +:+ Js.showNullable (brokenLinkError st) in
      match canaryError with
      | Some c => Some (brokenLinkError +:+ " " +:+ c)
      | None => Some brokenLinkError
      end
    else canaryError in
  match canaryError with
  | Some c => if Js.truthyStr c then Rejected c else Resolved
  | None => Resolved
  end.

(** The number of iterations granted to the loop: the larger of the number
    of seeds and the cap, which the loop never uses up. *)
Definition crawlFuel : nat :=
  length (URL_LIST cfg) `max` MAX_NUM_LINKS_TO_FOLLOW cfg.

Definition webCrawlerController : Outcome :=
  match firstPage w with
  | Throw e => Rejected e
  | Ok _ =>
      match crawlLoop crawlFuel setup with
      | Finished st => verdict st
      | Aborted e => Rejected e
      | OutOfFuel => Unfinished
      end
  end.

(** [exports.handler] (lines 338-340) *)
Definition handler : Outcome := webCrawlerController.

(** The states the loop goes through. *)
Inductive reachable : State → Prop :=
| reachable_setup : reachable setup
| reachable_iteration st link rest st' :
    reachable st →
    synLinks st = link :: rest →
    iteration st link rest = Ok st' →
    reachable st'.

End Crawler.

(** ** A small web to run the crawler on

    The seed page answers 200 and shows four anchors: one that loads, one
    that is missing, one back to the seed and one that is no page. *)
Module Scenario.

Definition config (seeds : list string) (cap interval : nat) : Config := {|
  URL_LIST := seeds;
  MUST_INCLUDE_DOMAIN := true;
  DOMAIN := "example.com";
  MAX_NUM_LINKS_TO_FOLLOW := cap;
  NUM_LINKS_TO_RELAUNCH_BROWSER := interval;
  TIMEOUT := 15000%Z;
  NETWORK_WAIT_CONDITION := domcontentloaded;
  CAPTURE_SOURCE_PAGE_SCREENSHOT := false;
  CAPTURE_DESTINATION_PAGE_SCREENSHOT_ON_SUCCESS := false;
  CAPTURE_DESTINATION_PAGE_SCREENSHOT_ON_FAILURE := false;
  ANNOTATION_BORDER_COLOR := "3px solid #e67e22"
|}.

Definition home : string := "https://example.com/".

Definition pathnameOf (u : string) : Exc string :=
  if Js.startsWith u "https://example.com"
  then Ok (String.substring 19 (String.length u - 19) u)
  else Throw "TypeError: Invalid URL".

Definition respond (code : Z) (reason : string) : NavOutcome :=
  NavResolves (Some {| status := SNum code; responseStatusText := reason |}).

Definition answers (k : nat) (u : string) : NavOutcome :=
  if String.eqb u "https://example.com/missing"
  then respond 404 "Not Found"
  else respond 200 "OK".

Definition anchorsOf (k : nat) : list DomItem :=
  match k with
  | 1 => [DomAnchor {| href := "https://example.com/a"; anchorText := " A " |} (Ok ());
          DomAnchor {| href := "https://example.com/missing"; anchorText := "gone" |} (Ok ());
          DomAnchor {| href := " https://example.com/ "; anchorText := "home" |} (Ok ());
          DomAnchor {| href := "mailto:me@example.com"; anchorText := "mail" |} (Ok ())]
  | _ => []
  end.

(** A world with the given relaunch and navigation; every swallowed
    failure happens: the blank page, the screenshots. *)
Definition worldWith (relaunch : nat → Exc unit)
    (nav : nat → string → NavOutcome) : World := {|
  firstPage := Ok ();
  urlPathname := pathnameOf;
  relaunchBrowser := relaunch;
  gotoBlank := λ _, Throw "Error: net::ERR_ABORTED";
  gotoUrl := nav;
  pageAnchors := anchorsOf;
  syntheticsTakeScreenshot := λ _ _ _, Throw "Error: no screenshot";
  reportAddLinkThrows := λ _, false
|}.

Definition world : World := worldWith (λ _, Ok ()) answers.

(** One seed, a cap of five, a relaunch every five links. *)
Definition cfg : Config := config [home] 5 5.

(** The same seed twice. *)
Definition cfgTwice : Config := config [home; home] 5 5.

(** Two seeds and a cap of one. *)
Definition cfgTwoSeeds : Config :=
  config ["https://example.com/a"; "https://example.com/b"] 1 5.

(** A relaunch before every link, and a browser that cannot be launched. *)
Definition cfgEvery : Config := config [home] 5 1.
Definition worldNoLaunch : World :=
  worldWith (λ _, Throw "Error: Failed to launch the browser process") answers.

(** A response without a status code. *)
Definition worldNoStatus : World := worldWith (λ _, Ok ()) (λ _ _, respond 0 "").

End Scenario.

(** ** Vocabulary of the statements *)

(** [k] is a positive multiple of [n]. *)
Definition positiveMultiple (k n : nat) : Prop := ∃ q, 0 < q ∧ k = q * n.

(** The browser calls made for one session action. *)
Definition sessionEvents (cfg : Config) (a : SessionAction) : list Event :=
  match a with
  | Relaunch => [EvRelaunch]
  | ResetPage => [EvReset (navigationOptions cfg)]
  | UseAsIs => []
  end.

(** The URLs navigated to, in order. *)
Definition navigatedUrls (tr : list Event) : list string :=
  omap (λ ev, match ev with EvGoto u _ _ => Some u | _ => None end) tr.

(** ** Shapes of a classified link *)

(** A link as it sits in the queue: nothing is known about it yet. *)
Definition pristine (l : SyntheticsLink) : Prop :=
  statusCode l = None ∧ statusText l = None ∧ failureReason l = None.

(** The three outcomes in the spec's words (section 4.3): which optional
    fields a Succeeded, a Broken and an Errored link carry. *)
Module Spec.

Definition Succeeded (l : SyntheticsLink) : Prop :=
  is_Some (statusCode l) ∧ is_Some (statusText l) ∧ failureReason l = None.

Definition Broken (l : SyntheticsLink) : Prop :=
  ∃ c t, statusCode l = Some c ∧ statusText l = Some t
         ∧ failureReason l = Some ("Status code: " +:+ showStatus c +:+ " " +:+ t).

Definition Errored (l : SyntheticsLink) : Prop :=
  is_Some (failureReason l) ∧ statusCode l = None ∧ statusText l = None.

End Spec.

(** The failure detail an outcome of [page.goto] leaves in
    [brokenLinkError] (lines 248, 252 and 268), if any. *)
Definition failureDetail (nav_url : string) (out : NavOutcome) : option string :=
  match out with
  | NavThrows e => Some ("Failed to load url: " +:+ nav_url +:+ ". " +:+ e)
  | NavResolves None =>
      Some ("Failed to receive network response for url: " +:+ nav_url)
  | NavResolves (Some r) =>
      if validStatus (Some r) then None
      else Some ("Failed to load url: " +:+ nav_url +:+ ". " +:+ "Status code: "
                 +:+ showStatus (status r) +:+ " " +:+ responseStatusText r)
  end.

(** The failure details of a crawl, oldest first, and the most recent one. *)
Definition failureDetails (tr : list Event) : list string :=
  omap (λ ev, match ev with
              | EvGoto u _ out => failureDetail u out
              | _ => None
              end) tr.

Definition lastFailureDetail (tr : list Event) : option string :=
  last (failureDetails tr).

(** The state after the next turn of the loop, when there is one and it
    returns. *)
Definition nextState (cfg : Config) (w : World) (st : State) : State :=
  match synLinks st with
  | link :: rest =>
      match iteration cfg w st link rest with
      | Ok st' => st'
      | Throw _ => st
      end
  | [] => st
  end.

(** The state in which the loop ends, when it does. *)
Definition finalState (cfg : Config) (w : World) : State :=
  match crawlLoop cfg w (crawlFuel cfg) (setup cfg) with
  | Finished st => st
  | _ => setup cfg
  end.

(** [cfg] with another cap. *)
Definition withCap (m : nat) (cfg : Config) : Config :=
  {| URL_LIST := URL_LIST cfg;
     MUST_INCLUDE_DOMAIN := MUST_INCLUDE_DOMAIN cfg;
     DOMAIN := DOMAIN cfg;
     MAX_NUM_LINKS_TO_FOLLOW := m;
     NUM_LINKS_TO_RELAUNCH_BROWSER := NUM_LINKS_TO_RELAUNCH_BROWSER cfg;
     TIMEOUT := TIMEOUT cfg;
     NETWORK_WAIT_CONDITION := NETWORK_WAIT_CONDITION cfg;
     CAPTURE_SOURCE_PAGE_SCREENSHOT := CAPTURE_SOURCE_PAGE_SCREENSHOT cfg;
     CAPTURE_DESTINATION_PAGE_SCREENSHOT_ON_SUCCESS :=
       CAPTURE_DESTINATION_PAGE_SCREENSHOT_ON_SUCCESS cfg;
     CAPTURE_DESTINATION_PAGE_SCREENSHOT_ON_FAILURE :=
       CAPTURE_DESTINATION_PAGE_SCREENSHOT_ON_FAILURE cfg;
     ANNOTATION_BORDER_COLOR := ANNOTATION_BORDER_COLOR cfg |}.

(** States of the crawls of [Scenario]. *)
Module Run.

Definition seedLink : SyntheticsLink := newSyntheticsLink Scenario.home.

Definition afterSeed : State :=
  nextState Scenario.cfg Scenario.world (setup Scenario.cfg).

Definition final : State := finalState Scenario.cfg Scenario.world.

Definition finalTwice : State := finalState Scenario.cfgTwice Scenario.world.

Definition afterNoStatus : State :=
  nextState Scenario.cfg Scenario.worldNoStatus (setup Scenario.cfg).

End Run.

(** ** Vocabulary of the further statements *)

(** Every character of [s] is one that [getFileName] keeps. *)
Fixpoint fileNameSafe (s : string) : bool :=
  match s with
  | EmptyString => true
  | String c s' => FileName.allowed c && fileNameSafe s'
  end.

(** A link without its screenshots. *)
Definition withoutScreenshots (l : SyntheticsLink) : SyntheticsLink :=
  {| url := url l; parentUrl := parentUrl l; text := text l;
     statusCode := statusCode l; statusText := statusText l;
     failureReason := failureReason l; screenshots := [] |}.

(** The extraction reads the anchor at this index without a throw. *)
Definition evaluatesAnchor (d : DomItem) : bool :=
  match d with
  | DomAnchor _ _ => true
  | DomEvalThrows _ => false
  end.

(** The URLs the crawl has navigated to or holds in its queue. *)
Definition knownUrls (st : State) : list string :=
  navigatedUrls (trace st) ++ map url (synLinks st).

(** Some turns of the loop lead from one state to another. *)
Inductive steps (cfg : Config) (w : World) : State → State → Prop :=
| steps_refl st : steps cfg w st st
| steps_next st link rest st' st'' :
    synLinks st = link :: rest →
    iteration cfg w st link rest = Ok st' →
    steps cfg w st' st'' →
    steps cfg w st st''.

(** Further webs: one that cannot be reached, one whose seed page breaks
    during the extraction, one whose report refuses every link, and a seed
    that is no URL. *)
Module Outage.

Definition worldDown : World :=
  Scenario.worldWith (λ _, Ok ())
    (λ _ _, NavThrows "Error: net::ERR_NAME_NOT_RESOLVED").


Definition worldDeafReport : World := {|
  firstPage := Ok ();
  urlPathname := Scenario.pathnameOf;
  relaunchBrowser := λ _, Ok ();
  gotoBlank := λ _, Ok ();
  gotoUrl := Scenario.answers;
  pageAnchors := Scenario.anchorsOf;
  syntheticsTakeScreenshot := λ _ f s, Ok (f +:+ "-" +:+ s);
  reportAddLinkThrows := λ _, true
|}.

Definition cfgBadSeed : Config := Scenario.config ["example.com"] 5 5.

(** A cap of two: the seed page fills it with its first anchor. *)
Definition cfgTight : Config := Scenario.config [Scenario.home] 2 5.

Definition afterDown : State :=
  nextState Scenario.cfg worldDown (setup Scenario.cfg).



Definition finalDeaf : State := finalState Scenario.cfg worldDeafReport.

Definition afterTight : State :=
  nextState cfgTight Scenario.world (setup cfgTight).

Definition finalTight : State := finalState cfgTight Scenario.world.

End Outage.

(** Two navigations to links follow each other without a reset or a
    relaunch in between. *)
Fixpoint backToBack (tr : list Event) : bool :=
  match tr with
  | [] => false
  | EvGoto _ _ _ :: tl =>
      match tl with
      | EvGoto _ _ _ :: _ => true
      | _ => backToBack tl
      end
  | _ :: tl => backToBack tl
  end.

(** * Properties *)

(** ** The request handler *)

Lemma onRequest_document cfg u :
  onRequest cfg {| resourceType := "document"; requestUrl := u |} = RequestContinue.
Proof. unfold onRequest; simpl. by destruct (_ && _). Qed.

Lemma onRequest_other cfg req :
  resourceType req ≠ "document" → onRequest cfg req = RequestAbort.
Proof.
  intros Hne. unfold onRequest.
  destruct (String.eqb_spec (resourceType req) "document"); [done|done].
Qed.

(** C1. With enforcement switched on and the domain [mydomain.com]
    configured (the values of the source file), a document request to a URL
    that does not contain the domain is nevertheless continued: both
    branches of the domain test call [request.continue()]. *)
Theorem onRequest_off_domain_document_continues :
  let request :=
    {| resourceType := "document"; requestUrl := "https://www.other.org/" |} in
  MUST_INCLUDE_DOMAIN sourceConfig = true
  ∧ Js.includes (requestUrl request) (DOMAIN sourceConfig) = false
  ∧ onRequest sourceConfig request = RequestContinue.
Proof. by vm_compute. Qed.

(** ** The navigation options *)

(** C7. The options object passed to [page.goto], for a link and for the
    blank page alike, has no [timeout] property: the configured value sits
    under the property name [TIMEOUT], next to [waitUntil], and these two
    are all its properties. *)
Theorem navigationOptions_timeout_property cfg :
  navigationOptions cfg !! "timeout" = None
  ∧ navigationOptions cfg !! "TIMEOUT" = Some (ONum (TIMEOUT cfg))
  ∧ dom (navigationOptions cfg) = ({[ "waitUntil"; "TIMEOUT" ]} : gset string).
Proof.
  unfold navigationOptions. split_and!.
  - by simplify_map_eq.
  - by simplify_map_eq.
  - rewrite dom_insert_L, dom_singleton_L. set_solver.
Qed.

(** ** The session policy as arithmetic *)

Lemma remIsZero_positiveMultiple k n :
  1 ≤ k → remIsZero k n = true ↔ positiveMultiple k n.
Proof.
  intros Hk. destruct n as [|n]; unfold remIsZero.
  - split; [done|]. intros (q & _ & ->). lia.
  - rewrite Nat.eqb_eq, Nat.Div0.mod_divides. split.
    + intros [c Hc]. exists c. split; [|lia].
      destruct c; [|lia]. rewrite Nat.mul_0_r in Hc. lia.
    + intros (q & _ & ->). exists q. lia.
Qed.

Lemma sessionAction_Relaunch cfg k :
  1 ≤ k →
  sessionAction cfg k = Relaunch
  ↔ positiveMultiple k (NUM_LINKS_TO_RELAUNCH_BROWSER cfg)
    ∧ k ≠ MAX_NUM_LINKS_TO_FOLLOW cfg.
Proof.
  intros Hk. rewrite <-(remIsZero_positiveMultiple _ _ Hk).
  unfold sessionAction.
  destruct (remIsZero _ _); simpl;
    destruct (Nat.eqb_spec k (MAX_NUM_LINKS_TO_FOLLOW cfg)); simpl;
    destruct (Nat.eqb_spec k 1); simpl; intuition congruence.
Qed.

Lemma sessionAction_ResetPage cfg k :
  sessionAction cfg k = ResetPage
  ↔ sessionAction cfg k ≠ Relaunch ∧ k ≠ 1.
Proof.
  unfold sessionAction.
  destruct (_ && _); destruct (Nat.eqb_spec k 1); simpl; intuition congruence.
Qed.

Lemma sessionAction_UseAsIs cfg k :
  sessionAction cfg k = UseAsIs
  ↔ sessionAction cfg k ≠ Relaunch ∧ k = 1.
Proof.
  unfold sessionAction.
  destruct (_ && _); destruct (Nat.eqb_spec k 1); simpl; intuition congruence.
Qed.

Lemma sessionEvents_inj cfg a b : sessionEvents cfg a = sessionEvents cfg b → a = b.
Proof. by destruct a, b. Qed.

Lemma navigatedUrls_app tr1 tr2 :
  navigatedUrls (tr1 ++ tr2) = navigatedUrls tr1 ++ navigatedUrls tr2.
Proof. apply omap_app. Qed.

Lemma navigatedUrls_sessionEvents cfg a : navigatedUrls (sessionEvents cfg a) = [].
Proof. by destruct a. Qed.

Section GrabFacts.

Variable cfg : Config.
Variable w : World.

Local Abbreviation M := (MAX_NUM_LINKS_TO_FOLLOW cfg).

Lemma evaluateAnchor_Some explored a text u :
  evaluateAnchor explored a = Some (text, u) →
  u = Js.trim (href a) ∧ (u ∉ explored) ∧ grabCondition explored u = true.
Proof.
  unfold evaluateAnchor.
  destruct (grabCondition explored _) eqn:Hc; [|done].
  intros [= _ <-]. split_and!; [done| |done].
  unfold grabCondition, Js.arrayIncludes in Hc.
  apply andb_prop in Hc as [Hc _]. apply andb_prop in Hc as [_ Hc].
  apply negb_true_iff, bool_decide_eq_false in Hc. done.
Qed.

Lemma pristine_grabbed sourceUrl text u shot :
  pristine (addScreenshotResult shot
              (withText text (withParentUrl sourceUrl (newSyntheticsLink u)))).
Proof. done. Qed.

(** What one run of the loop does to the two arrays: it pushes new URLs,
    all different and none explored before, and on a normal return it has
    pushed one link per URL, in the same order. *)
Lemma grabLoop_post k sourceUrl items explored grabbed explored' res :
  grabLoop cfg w k sourceUrl items explored grabbed = (explored', res) →
  ∃ new,
    explored' = explored ++ new
    ∧ NoDup new
    ∧ (∀ u, u ∈ new → u ∉ explored)
    ∧ (length explored < M → length explored' ≤ M)
    ∧ ∀ grabbed', res = Ok grabbed' →
        ∃ links, grabbed' = grabbed ++ links
                 ∧ map url links = new
                 ∧ Forall pristine links.
Proof.
  revert explored grabbed.
  induction items as [|[a restore|e] items IH]; intros explored grabbed; simpl.
  - intros [= <- <-]. exists []. rewrite app_nil_r.
    split_and!; [done|constructor|set_solver|lia|].
    intros ? [= <-]. exists []. by rewrite app_nil_r.
  - destruct (evaluateAnchor explored a) as [[text u]|] eqn:Hev; [|by apply IH].
    apply evaluateAnchor_Some in Hev as (_ & Hfresh & _).
    destruct (sourcePageScreenshot cfg w k u restore) as [shot|e].
    + destruct (M <=? length (explored ++ [u])) eqn:Hcap.
      * intros [= <- <-]. exists [u].
        split_and!;
          [done|apply NoDup_singleton|by intros v ->%list_elem_of_singleton| |].
        { rewrite length_app. simpl. lia. }
        intros ? [= <-]. eexists [_]. split_and!; [done|done|].
        apply Forall_singleton, pristine_grabbed.
      * intros Hrec. apply IH in Hrec as (new & -> & Hnd & Hnew & Hlen & Hres).
        apply Nat.leb_gt in Hcap.
        exists (u :: new). rewrite <-app_assoc. split_and!; [done| | | |].
        { constructor; [|done]. intros Hin. apply Hnew in Hin. set_solver. }
        { intros v [-> | Hv]%elem_of_cons; [done|]. apply Hnew in Hv. set_solver. }
        { intros _. rewrite <-app_assoc in Hlen. by apply Hlen. }
        intros grabbed' Hg. apply Hres in Hg as (links & -> & Hurl & Hpr).
        eexists (_ :: links). rewrite <-app_assoc. split_and!; [done| |].
        { simpl. by rewrite Hurl. }
        { constructor; [apply pristine_grabbed|done]. }
    + intros [= <- <-]. exists [u].
      split_and!;
        [done|apply NoDup_singleton|by intros v ->%list_elem_of_singleton| |done].
      rewrite length_app. simpl. lia.
  - intros [= <- <-]. exists []. rewrite app_nil_r.
    split_and!; [done|constructor|set_solver|lia|done].
Qed.

(** The same for the guarded call of lines 293-307: the queue receives
    either all the new URLs or, when the extraction threw, none. *)
Lemma grabMore_post k nav_url response explored queue explored' queue' :
  grabMore cfg w k nav_url response explored queue = (explored', queue') →
  ∃ new links,
    explored' = explored ++ new
    ∧ queue' = queue ++ links
    ∧ NoDup new
    ∧ (∀ u, u ∈ new → u ∉ explored)
    ∧ (new = [] ∨ length explored' ≤ M)
    ∧ (links = [] ∨ map url links = new)
    ∧ Forall pristine links.
Proof.
  unfold grabMore, grabLinks.
  destruct (validStatus response && (length explored <? M)) eqn:Hguard.
  - apply andb_prop in Hguard as [_ Hlt%Nat.ltb_lt].
    destruct (grabLoop _ _ _ _ _ _ _) as [e res] eqn:Hloop.
    apply grabLoop_post in Hloop as (new & -> & Hnd & Hnew & Hlen & Hres).
    destruct res as [more|err].
    + destruct (Hres more eq_refl) as (links & Hl & Hurl & Hpr). simpl in Hl.
      subst more. intros [= <- <-].
      destruct (0 <? length links) eqn:Hpos.
      * exists new, links. split_and!; auto.
      * apply Nat.ltb_ge in Hpos. destruct links; [|simpl in Hpos; lia].
        exists new, []. rewrite app_nil_r. split_and!; auto.
    + intros [= <- <-]. exists new, []. rewrite app_nil_r.
      split_and!; auto.
  - intros [= <- <-]. exists [], []. rewrite !app_nil_r.
    split_and!; auto using NoDup_nil_2. set_solver.
Qed.

End GrabFacts.

Section CrawlerFacts.

Variable cfg : Config.
Variable w : World.

Local Abbreviation M := (MAX_NUM_LINKS_TO_FOLLOW cfg).
Local Abbreviation R := (NUM_LINKS_TO_RELAUNCH_BROWSER cfg).

(** *** One iteration, taken apart *)

Lemma prepareSession_Ok k session :
  prepareSession cfg w k = Ok session →
  session = sessionEvents cfg (sessionAction cfg k).
Proof.
  unfold prepareSession, resetPage.
  destruct (sessionAction cfg k); simpl; [|congruence..].
  destruct (relaunchBrowser w k); simpl; congruence.
Qed.

Lemma iteration_Ok st link rest st' :
  iteration cfg w st link rest = Ok st' →
  let k := S (count st) in
  let out := gotoUrl w k (getUrl link) in
  ∃ fileName,
    getFileName (urlPathname w) (getUrl link) = Ok fileName
    ∧ prepareSession cfg w k = Ok (sessionEvents cfg (sessionAction cfg k))
    ∧ let chk := checkLink cfg w k fileName (getUrl link) out link
                   (brokenLinkError st) in
      let grab := grabMore cfg w k (getUrl link) chk.1.1 (exploredUrls st) rest in
      st' = {| exploredUrls := grab.1;
               synLinks := grab.2;
               count := k;
               brokenLinkError := chk.2;
               brokenLinkCheckerReport :=
                 recordLink w k chk.1.2 (brokenLinkCheckerReport st);
               trace := trace st ++ sessionEvents cfg (sessionAction cfg k)
                        ++ [EvGoto (getUrl link) (navigationOptions cfg) out] |}.
Proof.
  unfold iteration. intros H.
  destruct (getFileName _ _) as [fileName|] eqn:Hf; simpl in H; [|done].
  destruct (prepareSession cfg w _) as [session|] eqn:Hs; simpl in H; [|done].
  pose proof (prepareSession_Ok _ _ Hs) as ->.
  exists fileName. split_and!; [done..|].
  destruct (checkLink _ _ _ _ _ _ _ _) as [[response link'] ble].
  destruct (grabMore _ _ _ _ _ _ _) as [explored' synLinks'].
  simpl. congruence.
Qed.

(** *** The classification, taken apart *)

Lemma classify_url k fileName nav_url response link ble :
  url (classify cfg w k fileName nav_url response link ble).1 = url link.
Proof.
  unfold classify.
  destruct (validStatus response), response as [r|]; simpl; try done;
    by destruct (CAPTURE_DESTINATION_PAGE_SCREENSHOT_ON_SUCCESS cfg),
                (CAPTURE_DESTINATION_PAGE_SCREENSHOT_ON_FAILURE cfg).
Qed.

Lemma checkLink_response k fileName nav_url out link ble :
  (checkLink cfg w k fileName nav_url out link ble).1.1
  = match out with NavResolves r => r | NavThrows _ => None end.
Proof.
  unfold checkLink. destruct out as [e|[r|]]; simpl; try done.
  by destruct (classify cfg w k fileName nav_url (Some r) link ble).
Qed.

Lemma checkLink_url k fileName nav_url out link ble :
  url (checkLink cfg w k fileName nav_url out link ble).1.2 = url link.
Proof.
  unfold checkLink. destruct out as [e|[r|]]; simpl; try done.
  pose proof (classify_url k fileName nav_url (Some r) link ble) as Hu.
  by destruct (classify cfg w k fileName nav_url (Some r) link ble).
Qed.

(** [brokenLinkError] is overwritten exactly when the outcome has a failure
    detail. *)
Lemma checkLink_brokenLinkError k fileName nav_url out link ble :
  (checkLink cfg w k fileName nav_url out link ble).2
  = match failureDetail nav_url out with
    | Some d => Some d
    | None => ble
    end.
Proof.
  unfold checkLink, failureDetail, classify.
  destruct out as [e|[r|]]; simpl; try done.
  by destruct (statusTruthy (status r) && statusBelow400 (status r)).
Qed.

(** A pristine link comes out with a failure reason exactly when the
    outcome has a failure detail. *)
Lemma checkLink_failureReason k fileName nav_url out link ble :
  pristine link →
  failureReason (checkLink cfg w k fileName nav_url out link ble).1.2 = None
  ↔ failureDetail nav_url out = None.
Proof.
  intros (_ & _ & Hfr).
  unfold checkLink, failureDetail, classify.
  destruct out as [e|[r|]]; simpl; try done.
  destruct (statusTruthy (status r) && statusBelow400 (status r)); simpl.
  - by destruct (CAPTURE_DESTINATION_PAGE_SCREENSHOT_ON_SUCCESS cfg).
  - by destruct (CAPTURE_DESTINATION_PAGE_SCREENSHOT_ON_FAILURE cfg).
Qed.

(** *** Invariants of the loop *)

(** Every link waiting in the queue is pristine. *)
Lemma reachable_pristine st :
  reachable cfg w st → Forall pristine (synLinks st).
Proof.
  induction 1 as [|st link rest st' _ IH Hq Hit].
  - simpl. apply Forall_fmap, Forall_true. done.
  - apply iteration_Ok in Hit as (fileName & _ & _ & ->). simpl.
    destruct (grabMore _ _ _ _ _ _ _) as [e q] eqn:Hg. simpl.
    apply grabMore_post in Hg as (new & links & _ & -> & _ & _ & _ & _ & Hpr).
    rewrite Hq in IH. apply Forall_cons in IH as [_ IH].
    by apply Forall_app.
Qed.

(** [count] is the number of links navigated to so far. *)
Lemma reachable_count st :
  reachable cfg w st → count st = length (navigatedUrls (trace st)).
Proof.
  induction 1 as [|st link rest st' _ IH Hq Hit]; [done|].
  apply iteration_Ok in Hit as (fileName & _ & _ & ->). simpl.
  rewrite !navigatedUrls_app, navigatedUrls_sessionEvents, !length_app.
  simpl. lia.
Qed.

(** Every navigation of a crawl carries the options of
    [navigationOptions]. *)
Lemma reachable_options st ev :
  reachable cfg w st → ev ∈ trace st →
  match ev with
  | EvRelaunch => True
  | EvReset opts | EvGoto _ opts _ => opts = navigationOptions cfg
  end.
Proof.
  intros Hr. revert ev.
  induction Hr as [|st link rest st' _ IH Hq Hit]; intros ev Hev.
  - by apply elem_of_nil in Hev.
  - apply iteration_Ok in Hit as (fileName & _ & _ & ->). simpl in Hev.
    apply elem_of_app in Hev as [Hev|Hev]; [by apply IH|].
    apply elem_of_app in Hev as [Hev|Hev].
    + destruct (sessionAction cfg _); simpl in Hev;
        [by apply list_elem_of_singleton in Hev as ->..
        |by apply elem_of_nil in Hev].
    + apply list_elem_of_singleton in Hev as ->. done.
Qed.

(** The explored URLs are the seeds followed by the discovered URLs, which
    are pairwise different and different from every seed; the URLs
    navigated to followed by the URLs of the queue are the seeds followed by
    some of the discovered URLs, in the order of their discovery; the cap
    bounds the array unless the seeds alone exceed it. *)
Lemma reachable_frontier st :
  reachable cfg w st →
  ∃ discovered enqueued,
    exploredUrls st = URL_LIST cfg ++ discovered
    ∧ NoDup discovered
    ∧ (∀ u, u ∈ discovered → u ∉ URL_LIST cfg)
    ∧ navigatedUrls (trace st) ++ map url (synLinks st)
      = URL_LIST cfg ++ enqueued
    ∧ enqueued `sublist_of` discovered
    ∧ length (exploredUrls st) ≤ length (URL_LIST cfg) `max` M.
Proof.
  induction 1 as [|st link rest st' _ IH Hq Hit].
  - exists [], []. simpl. rewrite app_nil_r, map_map. simpl. rewrite map_id.
    split_and!; [done|constructor|set_solver|done|done|lia].
  - destruct IH as (disc & enq & Hex & Hnd & Hns & Hnav & Hsub & Hlen).
    apply iteration_Ok in Hit as (fileName & _ & _ & ->). simpl.
    destruct (grabMore _ _ _ _ _ _ _) as [e q] eqn:Hg. simpl.
    apply grabMore_post in Hg
      as (new & links & -> & -> & Hnd' & Hnew & Hcap & Hlinks & _).
    exists (disc ++ new), (enq ++ map url links).
    rewrite Hex in *. split_and!.
    + by rewrite app_assoc.
    + apply NoDup_app. split_and!; [done| |done].
      intros u Hu Hu'. apply Hnew in Hu'. apply Hu', elem_of_app. by right.
    + intros u [Hu|Hu]%elem_of_app; [by apply Hns|].
      apply Hnew in Hu. intros Hin. apply Hu, elem_of_app. by left.
    + rewrite !navigatedUrls_app, navigatedUrls_sessionEvents. simpl.
      rewrite Hq in Hnav. simpl in Hnav.
      rewrite map_app. unfold getUrl.
      transitivity ((navigatedUrls (trace st) ++ url link :: map url rest)
                    ++ map url links).
      { by rewrite <- !app_assoc. }
      by rewrite Hnav, <- app_assoc.
    + apply sublist_app; [done|].
      destruct Hlinks as [-> | ->]; [apply sublist_nil_l|done].
    + destruct Hcap as [-> | Hcap]; [by rewrite app_nil_r|lia].
Qed.

(** The URLs of the report entries are among the URLs navigated to, in the
    same order; they are the same when [addLink] never throws. *)
Lemma reachable_entries st :
  reachable cfg w st →
  map url (entries (brokenLinkCheckerReport st))
    `sublist_of` navigatedUrls (trace st)
  ∧ ((∀ k, reportAddLinkThrows w k = false) →
     map url (entries (brokenLinkCheckerReport st)) = navigatedUrls (trace st)).
Proof.
  induction 1 as [|st link rest st' _ [IH1 IH2] Hq Hit]; [done|].
  apply iteration_Ok in Hit as (fileName & _ & _ & ->). simpl.
  rewrite !navigatedUrls_app, navigatedUrls_sessionEvents. simpl.
  unfold recordLink. split.
  - destruct (reportAddLinkThrows w _); simpl.
    + by apply sublist_inserts_r.
    + rewrite map_app. simpl. rewrite checkLink_url.
      apply sublist_app; [done|]. done.
  - intros Hno. rewrite Hno. simpl. rewrite map_app, IH2 by done. simpl.
    by rewrite checkLink_url.
Qed.

(** [brokenLinkError] holds the most recent failure detail, and it holds
    one as soon as an entry of the report has a failure reason. *)
Lemma reachable_brokenLinkError st :
  reachable cfg w st →
  brokenLinkError st = lastFailureDetail (trace st)
  ∧ ((∃ l, l ∈ entries (brokenLinkCheckerReport st) ∧ failureReason l ≠ None) →
     is_Some (brokenLinkError st)).
Proof.
  induction 1 as [|st link rest st' Hr [IH1 IH2] Hq Hit].
  - split; [done|]. intros (l & Hl & _). by apply elem_of_nil in Hl.
  - pose proof (reachable_pristine _ Hr) as Hpr.
    rewrite Hq in Hpr. apply Forall_cons in Hpr as [Hpr _].
    apply iteration_Ok in Hit as (fileName & _ & _ & ->). simpl.
    rewrite checkLink_brokenLinkError.
    split.
    + unfold lastFailureDetail, failureDetails.
      rewrite !omap_app, !last_app. simpl.
      destruct (failureDetail _ _) as [d|] eqn:Hd; simpl; [done|].
      destruct (sessionAction cfg _); simpl; done.
    + intros (l & Hl & Hfr).
      destruct (failureDetail _ _) as [d|] eqn:Hd; [by eexists|].
      apply IH2. unfold recordLink in Hl.
      destruct (reportAddLinkThrows w _); [by exists l|].
      simpl in Hl. apply elem_of_app in Hl as [Hl|Hl]; [by exists l|].
      apply list_elem_of_singleton in Hl as ->.
      exfalso. apply Hfr. by apply checkLink_failureReason.
Qed.

(** *** Fuel and termination *)

(** What is left to do: the links in the queue, and the room under the
    cap. *)
Lemma iteration_measure st link rest st' :
  iteration cfg w st link rest = Ok st' →
  length (synLinks st') + (M - length (exploredUrls st'))
  ≤ length rest + (M - length (exploredUrls st)).
Proof.
  intros Hit. apply iteration_Ok in Hit as (fileName & _ & _ & ->). simpl.
  destruct (grabMore _ _ _ _ _ _ _) as [e q] eqn:Hg. simpl.
  apply grabMore_post in Hg
    as (new & links & -> & -> & _ & _ & Hcap & Hlinks & _).
  assert (length links ≤ length new) as Hle.
  { destruct Hlinks as [-> | <-]; [simpl; lia|by rewrite length_map]. }
  rewrite !length_app in *.
  destruct Hcap as [-> | Hcap]; simpl in *; lia.
Qed.

Lemma crawlLoop_enough_fuel fuel st :
  length (synLinks st) + (M - length (exploredUrls st)) ≤ fuel →
  crawlLoop cfg w fuel st ≠ OutOfFuel.
Proof.
  revert st. induction fuel as [|fuel IH]; intros st Hm; simpl.
  - destruct (synLinks st); [done|simpl in Hm; lia].
  - destruct (synLinks st) as [|link rest] eqn:Hq; [done|].
    destruct (iteration cfg w st link rest) as [st'|e] eqn:Hit; [|done].
    apply IH. apply iteration_measure in Hit. simpl in Hm. lia.
Qed.

(** More fuel does not change a result. *)
Lemma crawlLoop_more_fuel fuel fuel' st :
  crawlLoop cfg w fuel st ≠ OutOfFuel → fuel ≤ fuel' →
  crawlLoop cfg w fuel' st = crawlLoop cfg w fuel st.
Proof.
  revert fuel' st. induction fuel as [|fuel IH]; intros fuel' st Hne Hle.
  - simpl in *. destruct (synLinks st) eqn:Hq; [|done].
    destruct fuel'; simpl; by rewrite Hq.
  - destruct fuel' as [|fuel']; [lia|]. simpl in *.
    destruct (synLinks st) as [|link rest]; [done|].
    destruct (iteration cfg w st link rest) as [st'|e]; [|done].
    apply IH; [done|lia].
Qed.

Lemma crawlLoop_fuel_irrelevant fuel fuel' st :
  crawlLoop cfg w fuel st ≠ OutOfFuel →
  crawlLoop cfg w fuel' st ≠ OutOfFuel →
  crawlLoop cfg w fuel' st = crawlLoop cfg w fuel st.
Proof.
  intros H1 H2. destruct (Nat.le_ge_cases fuel fuel').
  - by apply crawlLoop_more_fuel.
  - symmetry. by apply crawlLoop_more_fuel.
Qed.

(** The loop only goes through reachable states. *)
Lemma crawlLoop_reachable fuel st st' :
  reachable cfg w st → crawlLoop cfg w fuel st = Finished st' →
  reachable cfg w st' ∧ synLinks st' = [].
Proof.
  revert st. induction fuel as [|fuel IH]; intros st Hr; simpl.
  - destruct (synLinks st) eqn:Hq; [|done]. by intros [= <-].
  - destruct (synLinks st) as [|link rest] eqn:Hq; [by intros [= <-]|].
    destruct (iteration cfg w st link rest) as [st1|e] eqn:Hit; [|done].
    apply IH. by eapply reachable_iteration.
Qed.

(** A reachable state is met by the loop started from [setup]. *)
Lemma reachable_crawlLoop st :
  reachable cfg w st →
  ∀ fuel, crawlLoop cfg w (count st + fuel) (setup cfg) = crawlLoop cfg w fuel st.
Proof.
  induction 1 as [|st link rest st' _ IH Hq Hit]; intros fuel; [done|].
  assert (count st' = S (count st)) as ->.
  { pose proof Hit as Hit'. by apply iteration_Ok in Hit' as (? & _ & _ & ->). }
  replace (S (count st) + fuel) with (count st + S fuel) by lia.
  rewrite IH. simpl. by rewrite Hq, Hit.
Qed.

Lemma setup_measure :
  length (synLinks (setup cfg)) + (M - length (exploredUrls (setup cfg)))
  ≤ crawlFuel cfg.
Proof. unfold crawlFuel. simpl. rewrite length_map. lia. Qed.

Lemma webCrawlerController_Finished fuel st :
  firstPage w = Ok () →
  crawlLoop cfg w fuel (setup cfg) = Finished st →
  webCrawlerController cfg w = verdict st.
Proof.
  intros Hp Hf. unfold webCrawlerController. rewrite Hp.
  rewrite (crawlLoop_fuel_irrelevant fuel), Hf; [done|by rewrite Hf|].
  apply crawlLoop_enough_fuel, setup_measure.
Qed.

Lemma webCrawlerController_Aborted fuel e :
  firstPage w = Ok () →
  crawlLoop cfg w fuel (setup cfg) = Aborted e →
  webCrawlerController cfg w = Rejected e.
Proof.
  intros Hp Hf. unfold webCrawlerController. rewrite Hp.
  rewrite (crawlLoop_fuel_irrelevant fuel), Hf; [done|by rewrite Hf|].
  apply crawlLoop_enough_fuel, setup_measure.
Qed.

(** *** The verdict *)

Lemma append_nonempty (a b : string) : b ≠ "" → a +:+ b ≠ "".
Proof. destruct a; simpl; [done|]. by destruct b. Qed.

Lemma verdict_clean st :
  getTotalBrokenLinks (brokenLinkCheckerReport st) = 0 → verdict st = Resolved.
Proof. unfold verdict. by intros ->. Qed.

Lemma verdict_broken st :
  getTotalBrokenLinks (brokenLinkCheckerReport st) ≠ 0 →
  verdict st
  = Rejected (pretty (getTotalBrokenLinks (brokenLinkCheckerReport st))
              +:+ " broken link(s) detected. "
              +:+ Js.showNullable (brokenLinkError st)).
Proof.
  intros Hn. unfold verdict.
  destruct (Nat.eqb_spec (getTotalBrokenLinks (brokenLinkCheckerReport st)) 0);
    [done|]. simpl.
  unfold Js.truthyStr.
  destruct (String.eqb_spec
    (pretty (getTotalBrokenLinks (brokenLinkCheckerReport st))
     +:+ " broken link(s) detected. " +:+ Js.showNullable (brokenLinkError st)) "")
    as [Heq|]; [|done].
  exfalso. revert Heq. apply append_nonempty. by destruct (Js.showNullable _).
Qed.

(** A counted entry has a failure reason. *)
Lemma getTotalBrokenLinks_pos report :
  getTotalBrokenLinks report ≠ 0 →
  ∃ l, l ∈ entries report ∧ failureReason l ≠ None.
Proof.
  unfold getTotalBrokenLinks. intros Hn.
  destruct (filter _ (entries report)) as [|l ls] eqn:Hf; [done|].
  assert (l ∈ filter (λ l, hasFailureReason l = true) (entries report)) as Hl.
  { rewrite Hf. left. }
  apply list_elem_of_filter in Hl as [Hhas Hl]. exists l. split; [done|].
  unfold hasFailureReason in Hhas. by destruct (failureReason l).
Qed.

(** *** The fields of a classified link *)

Lemma checkLink_resolved k fileName nav_url r link ble :
  pristine link →
  let link' :=
    (checkLink cfg w k fileName nav_url (NavResolves (Some r)) link ble).1.2 in
  statusCode link' = Some (status r)
  ∧ statusText link' = Some (responseStatusText r)
  ∧ failureReason link'
    = if validStatus (Some r) then None
      else Some ("Status code: " +:+ showStatus (status r) +:+ " "
                 +:+ responseStatusText r).
Proof.
  intros (_ & _ & Hfr). unfold checkLink, classify. simpl.
  destruct (statusTruthy (status r) && statusBelow400 (status r)); simpl.
  - by destruct (CAPTURE_DESTINATION_PAGE_SCREENSHOT_ON_SUCCESS cfg).
  - by destruct (CAPTURE_DESTINATION_PAGE_SCREENSHOT_ON_FAILURE cfg).
Qed.

Lemma checkLink_no_response k fileName nav_url link ble :
  pristine link →
  let link' := (checkLink cfg w k fileName nav_url (NavResolves None) link ble).1.2 in
  statusCode link' = None
  ∧ statusText link' = None
  ∧ failureReason link' = Some "Received null or undefined response".
Proof. by intros (? & ? & _). Qed.

Lemma checkLink_throws k fileName nav_url e link ble :
  pristine link →
  let link' := (checkLink cfg w k fileName nav_url (NavThrows e) link ble).1.2 in
  statusCode link' = None
  ∧ statusText link' = None
  ∧ failureReason link' = Some e.
Proof. by intros (? & ? & _). Qed.

(** Links are only extracted after a valid status. *)
Lemma grabMore_invalid k nav_url response explored queue :
  validStatus response = false →
  grabMore cfg w k nav_url response explored queue = (explored, queue).
Proof. unfold grabMore. by intros ->. Qed.

End CrawlerFacts.

(** ** One turn of the loop on a response *)

Lemma iteration_resolved cfg w st link rest st' r :
  reachable cfg w st →
  synLinks st = link :: rest →
  iteration cfg w st link rest = Ok st' →
  gotoUrl w (S (count st)) (getUrl link) = NavResolves (Some r) →
  ∃ link',
    brokenLinkCheckerReport st'
    = recordLink w (S (count st)) link' (brokenLinkCheckerReport st)
    ∧ url link' = url link
    ∧ statusCode link' = Some (status r)
    ∧ statusText link' = Some (responseStatusText r)
    ∧ failureReason link'
      = (if validStatus (Some r) then None
         else Some ("Status code: " +:+ showStatus (status r) +:+ " "
                    +:+ responseStatusText r))
    ∧ brokenLinkError st'
      = match failureDetail (getUrl link) (NavResolves (Some r)) with
        | Some d => Some d
        | None => brokenLinkError st
        end
    ∧ (validStatus (Some r) = false →
       exploredUrls st' = exploredUrls st ∧ synLinks st' = rest).
Proof.
  intros Hr Hq Hit Hgo.
  pose proof (reachable_pristine _ _ _ Hr) as Hpr.
  rewrite Hq in Hpr. apply Forall_cons in Hpr as [Hpr _].
  apply iteration_Ok in Hit as (fileName & _ & _ & ->). rewrite Hgo. simpl.
  eexists. split; [reflexivity|].
  destruct (checkLink_resolved cfg w (S (count st)) fileName (getUrl link)
              r link (brokenLinkError st) Hpr) as (Hc & Ht & Hf).
  rewrite checkLink_url, checkLink_brokenLinkError, checkLink_response.
  split_and!; [done..|].
  intros Hinv. by rewrite grabMore_invalid.
Qed.

(** C2. A dequeued link whose navigation resolves with a response of
    non-zero status [z] is recorded with that status code and status text;
    below 400 it has no failure reason (Succeeded), from 400 on its failure
    reason is [Status code: <z> <text>] (Broken). *)
Theorem status_400_boundary cfg w st link rest st' z txt :
  reachable cfg w st →
  synLinks st = link :: rest →
  iteration cfg w st link rest = Ok st' →
  gotoUrl w (S (count st)) (getUrl link)
  = NavResolves (Some {| status := SNum z; responseStatusText := txt |}) →
  z ≠ 0%Z →
  ∃ link',
    brokenLinkCheckerReport st'
    = recordLink w (S (count st)) link' (brokenLinkCheckerReport st)
    ∧ url link' = url link
    ∧ statusCode link' = Some (SNum z)
    ∧ statusText link' = Some txt
    ∧ ((z < 400)%Z → failureReason link' = None ∧ Spec.Succeeded link')
    ∧ ((400 ≤ z)%Z →
       failureReason link' = Some ("Status code: " +:+ pretty z +:+ " " +:+ txt)
       ∧ Spec.Broken link').
Proof.
  intros Hr Hq Hit Hgo Hz.
  destruct (iteration_resolved _ _ _ _ _ _ _ Hr Hq Hit Hgo)
    as (link' & Hrep & Hurl & Hc & Ht & Hf & _).
  simpl in *. exists link'. split_and!; [done..| |].
  - intros Hlt. assert ((z =? 0)%Z = false) as Hz' by lia.
    assert ((z <? 400)%Z = true) as Hlt' by lia.
    rewrite Hz', Hlt' in Hf. simpl in Hf.
    split; [done|]. unfold Spec.Succeeded. rewrite Hc, Ht. eauto.
  - intros Hge. assert ((z <? 400)%Z = false) as Hge' by lia.
    rewrite Hge', andb_false_r in Hf.
    split; [done|]. exists (SNum z), txt. done.
Qed.

(** The two sides of the boundary, on a seed link. *)
Example status_399_succeeded :
  (checkLink sourceConfig Scenario.world 1 "index" "https://www.mydomain.com/"
     (NavResolves (Some {| status := SNum 399; responseStatusText := "x" |}))
     (newSyntheticsLink "https://www.mydomain.com/") None).1.2
  = {| url := "https://www.mydomain.com/"; parentUrl := None; text := None;
       statusCode := Some (SNum 399); statusText := Some "x";
       failureReason := None; screenshots := [] |}.
Proof. reflexivity. Qed.

Example status_400_broken :
  (checkLink sourceConfig Scenario.world 1 "index" "https://www.mydomain.com/"
     (NavResolves (Some {| status := SNum 400; responseStatusText := "x" |}))
     (newSyntheticsLink "https://www.mydomain.com/") None).1.2
  = {| url := "https://www.mydomain.com/"; parentUrl := None; text := None;
       statusCode := Some (SNum 400); statusText := Some "x";
       failureReason := Some "Status code: 400 x"; screenshots := [] |}.
Proof. by vm_compute. Qed.

(** A response with status 0 is recorded as a Broken link, with its status
    fields set: not as the link of a navigation without response. *)
Lemma falsy_status_not_errored :
  let link := newSyntheticsLink "https://example.com/" in
  let r := {| status := SNum 0; responseStatusText := "" |} in
  let falsy :=
    (checkLink Scenario.cfg Scenario.world 1 "index" (url link)
       (NavResolves (Some r)) link None).1.2 in
  let absent :=
    (checkLink Scenario.cfg Scenario.world 1 "index" (url link)
       (NavResolves None) link None).1.2 in
  statusTruthy (status r) = false
  ∧ falsy ≠ absent
  ∧ statusCode falsy = Some (SNum 0)
  ∧ failureReason falsy = Some "Status code: 0 "
  ∧ failureReason absent = Some "Received null or undefined response"
  ∧ Spec.Broken falsy
  ∧ ¬ Spec.Errored falsy
  ∧ Spec.Errored absent.
Proof.
  intros link r falsy absent. split_and!.
  - reflexivity.
  - intros Heq. apply (f_equal statusCode) in Heq. by vm_compute in Heq.
  - by vm_compute.
  - by vm_compute.
  - by vm_compute.
  - exists (SNum 0), "". by vm_compute.
  - intros (_ & Hc & _). by vm_compute in Hc.
  - split_and!; [by eexists|by vm_compute..].
Qed.

(** C4, as the code has it. A dequeued link whose navigation resolves with
    a response of undefined or zero status is recorded by the branch of the
    failing statuses: status code and status text are set from the response,
    the failure reason is [Status code: <status> <text>], the failure detail
    of the crawl names it, and no link is extracted from its page. The
    record is neither that of a Succeeded link nor that of a link without
    response. *)
Theorem falsy_status_recorded_as_broken cfg w st link rest st' s txt :
  reachable cfg w st →
  synLinks st = link :: rest →
  iteration cfg w st link rest = Ok st' →
  gotoUrl w (S (count st)) (getUrl link)
  = NavResolves (Some {| status := s; responseStatusText := txt |}) →
  statusTruthy s = false →
  ∃ link',
    brokenLinkCheckerReport st'
    = recordLink w (S (count st)) link' (brokenLinkCheckerReport st)
    ∧ url link' = url link
    ∧ statusCode link' = Some s
    ∧ statusText link' = Some txt
    ∧ failureReason link' = Some ("Status code: " +:+ showStatus s +:+ " " +:+ txt)
    ∧ Spec.Broken link' ∧ ¬ Spec.Succeeded link' ∧ ¬ Spec.Errored link'
    ∧ brokenLinkError st'
      = Some ("Failed to load url: " +:+ getUrl link +:+ ". " +:+ "Status code: "
              +:+ showStatus s +:+ " " +:+ txt)
    ∧ exploredUrls st' = exploredUrls st
    ∧ synLinks st' = rest.
Proof.
  intros Hr Hq Hit Hgo Hs.
  destruct (iteration_resolved _ _ _ _ _ _ _ Hr Hq Hit Hgo)
    as (link' & Hrep & Hurl & Hc & Ht & Hf & Hble & Hgrab).
  simpl in *. rewrite Hs in *. simpl in *.
  destruct (Hgrab eq_refl) as [He Hsyn].
  exists link'. split_and!; try done.
  - by exists s, txt.
  - intros (_ & _ & Hnone). congruence.
  - intros (_ & Hnone & _). congruence.
Qed.

(** ** The session policy in the loop *)

Lemma sessionEvents_eq cfg a b :
  sessionEvents cfg a = sessionEvents cfg b ↔ a = b.
Proof. split; [apply sessionEvents_inj|by intros ->]. Qed.

(** C6. The link dequeued in a reachable state is the [k]-th, with
    [k = count + 1]. The browser calls of its turn are the session calls
    followed by the navigation to the link, and the session calls are: a
    relaunch exactly when [k] is a positive multiple of the relaunch interval
    and differs from the cap; otherwise a blank-page reset exactly when
    [k] is not 1; and nothing for the first link otherwise. With an interval
    of 5 and a cap of 12, the relaunches among the first twelve links are
    those before links 5 and 10. *)
Theorem session_schedule cfg w st link rest st' :
  reachable cfg w st →
  synLinks st = link :: rest →
  iteration cfg w st link rest = Ok st' →
  let k := S (count st) in
  let R := NUM_LINKS_TO_RELAUNCH_BROWSER cfg in
  let M := MAX_NUM_LINKS_TO_FOLLOW cfg in
  let relaunchDue := positiveMultiple k R ∧ k ≠ M in
  k = S (length (navigatedUrls (trace st)))
  ∧ (∃ session,
       trace st' = trace st ++ session
                   ++ [EvGoto (getUrl link) (navigationOptions cfg)
                         (gotoUrl w k (getUrl link))]
       ∧ (session = [EvRelaunch] ↔ relaunchDue)
       ∧ (session = [EvReset (navigationOptions cfg)] ↔ ¬ relaunchDue ∧ k ≠ 1)
       ∧ (session = [] ↔ ¬ relaunchDue ∧ k = 1))
  ∧ (R = 5 → M = 12 → k ≤ 12 → (relaunchDue ↔ k = 5 ∨ k = 10)).
Proof.
  intros Hr Hq Hit k R M relaunchDue.
  assert (1 ≤ k) as Hk by (unfold k; lia).
  pose proof (sessionAction_Relaunch cfg k Hk) as Hrel.
  fold R M relaunchDue in Hrel.
  split_and!.
  - unfold k. by rewrite (reachable_count _ _ _ Hr).
  - apply iteration_Ok in Hit as (fileName & _ & _ & ->). simpl.
    exists (sessionEvents cfg (sessionAction cfg k)). split_and!; [done| | |].
    + by rewrite <-Hrel, <-(sessionEvents_eq cfg _ Relaunch).
    + rewrite <-Hrel, <-sessionAction_ResetPage.
      by rewrite <-(sessionEvents_eq cfg _ ResetPage).
    + rewrite <-Hrel, <-sessionAction_UseAsIs.
      by rewrite <-(sessionEvents_eq cfg _ UseAsIs).
  - intros HR HM Hle. unfold relaunchDue, positiveMultiple.
    rewrite HR, HM. split.
    + intros [(q & Hq0 & Hkq) Hne]. lia.
    + intros [H5 | H10]; (split; [|lia]); [exists 1|exists 2]; lia.
Qed.

(** ** The exit contract *)

(** C3. When the first page was obtained and the loop has emptied the
    queue, the crawl throws exactly when
    the report counts a broken link; what it throws is the count, the words
    [ broken link(s) detected. ] and the most recent failure detail of the
    crawl; with no broken link the crawl returns normally. *)
Theorem exit_contract cfg w fuel st :
  firstPage w = Ok () →
  crawlLoop cfg w fuel (setup cfg) = Finished st →
  let n := getTotalBrokenLinks (brokenLinkCheckerReport st) in
  ((∃ thrown, webCrawlerController cfg w = Rejected thrown) ↔ n ≠ 0)
  ∧ (n = 0 → webCrawlerController cfg w = Resolved)
  ∧ (n ≠ 0 →
     ∃ detail,
       lastFailureDetail (trace st) = Some detail
       ∧ webCrawlerController cfg w
         = Rejected (pretty n +:+ " broken link(s) detected. " +:+ detail)).
Proof.
  intros Hpage Hfin n.
  rewrite (webCrawlerController_Finished _ _ _ _ Hpage Hfin).
  assert (reachable cfg w st) as Hr.
  { eapply crawlLoop_reachable; [apply reachable_setup|done]. }
  destruct (reachable_brokenLinkError _ _ _ Hr) as [Hlast Hsome].
  split_and!.
  - split.
    + intros [thrown Hv] Hn. by rewrite verdict_clean in Hv.
    + intros Hn. rewrite verdict_broken by done. by eexists.
  - apply verdict_clean.
  - intros Hn. rewrite verdict_broken by done.
    destruct (Hsome (getTotalBrokenLinks_pos _ Hn)) as [d Hd].
    exists d. rewrite <-Hlast, Hd. done.
Qed.

(** ** Termination *)

(** C8. Whatever the configuration and the collaborators, the loop needs
    no more turns than the larger of the number of seeds and the cap: with
    that many it ends (with an empty queue or by a throw), more would not
    change the result, and a loop that empties the queue has taken at most
    that many turns. *)
Theorem crawl_terminates cfg w :
  crawlLoop cfg w (crawlFuel cfg) (setup cfg) ≠ OutOfFuel
  ∧ (∀ fuel, crawlFuel cfg ≤ fuel →
       crawlLoop cfg w fuel (setup cfg)
       = crawlLoop cfg w (crawlFuel cfg) (setup cfg))
  ∧ webCrawlerController cfg w ≠ Unfinished
  ∧ (∀ fuel st, crawlLoop cfg w fuel (setup cfg) = Finished st →
       synLinks st = [] ∧ count st ≤ crawlFuel cfg).
Proof.
  assert (crawlLoop cfg w (crawlFuel cfg) (setup cfg) ≠ OutOfFuel) as Hne.
  { apply crawlLoop_enough_fuel, setup_measure. }
  split_and!; [done| | |].
  - intros fuel Hle. by apply crawlLoop_more_fuel.
  - unfold webCrawlerController. destruct (firstPage w); [|done].
    destruct (crawlLoop cfg w (crawlFuel cfg) (setup cfg)) as [st| |];
      [|done..].
    unfold verdict. destruct (negb _); [|done]. by destruct (Js.truthyStr _).
  - intros fuel st Hfin.
    apply crawlLoop_reachable in Hfin as [Hr Hq]; [|apply reachable_setup].
    split; [done|].
    destruct (reachable_frontier _ _ _ Hr)
      as (disc & enq & Hex & _ & _ & Hnav & Hsub & Hlen).
    rewrite (reachable_count _ _ _ Hr).
    rewrite Hq, app_nil_r in Hnav. rewrite Hnav.
    apply sublist_length in Hsub.
    rewrite Hex in Hlen. unfold crawlFuel. rewrite !length_app in *. lia.
Qed.

(** ** Seeds *)

(** C9. The queue starts with one link per occurrence in the seed list, in
    the order of the list and without any test against the URLs already
    there; a crawl that empties the queue has navigated to the seeds first,
    once per occurrence, and, when the report accepts every link, has
    recorded them in the same way. *)
Theorem seeds_processed_per_occurrence cfg w fuel st :
  crawlLoop cfg w fuel (setup cfg) = Finished st →
  synLinks (setup cfg) = map newSyntheticsLink (URL_LIST cfg)
  ∧ URL_LIST cfg `prefix_of` navigatedUrls (trace st)
  ∧ ((∀ k, reportAddLinkThrows w k = false) →
     URL_LIST cfg `prefix_of` map url (entries (brokenLinkCheckerReport st))).
Proof.
  intros Hfin.
  apply crawlLoop_reachable in Hfin as [Hr Hq]; [|apply reachable_setup].
  destruct (reachable_frontier _ _ _ Hr) as (disc & enq & _ & _ & _ & Hnav & _).
  rewrite Hq, app_nil_r in Hnav.
  split_and!; [done|by exists enq|].
  intros Hno. destruct (reachable_entries _ _ _ Hr) as [_ Heq].
  rewrite Heq by done. by exists enq.
Qed.

(** ** Failures of the collaborators *)

(** C10. In a crawl that obtained its first page, in a reachable state
    whose next link has a file name: when the
    relaunch is due and throws, the turn throws the same value and so does
    the whole crawl; when the relaunch is not due or returns, the turn
    returns a state, whatever the blank-page navigation, the screenshots and
    [addLink] do. *)
Theorem relaunch_failure_aborts cfg w st link rest fileName :
  firstPage w = Ok () →
  reachable cfg w st →
  synLinks st = link :: rest →
  getFileName (urlPathname w) (getUrl link) = Ok fileName →
  (∀ e, sessionAction cfg (S (count st)) = Relaunch →
        relaunchBrowser w (S (count st)) = Throw e →
        iteration cfg w st link rest = Throw e
        ∧ webCrawlerController cfg w = Rejected e)
  ∧ ((sessionAction cfg (S (count st)) = Relaunch →
      relaunchBrowser w (S (count st)) = Ok ()) →
     ∃ st', iteration cfg w st link rest = Ok st').
Proof.
  intros Hpage Hr Hq Hfile. split.
  - intros e Hact Hthrow.
    assert (iteration cfg w st link rest = Throw e) as Hit.
    { unfold iteration, prepareSession. rewrite Hfile. simpl.
      by rewrite Hact, Hthrow. }
    split; [done|].
    apply (webCrawlerController_Aborted _ _ (count st + 1)); [done|].
    rewrite (reachable_crawlLoop _ _ _ Hr). simpl. by rewrite Hq, Hit.
  - intros Hok. unfold iteration, prepareSession. rewrite Hfile. simpl.
    destruct (sessionAction cfg (S (count st))) eqn:Hact; simpl.
    + rewrite Hok by done. simpl.
      destruct (checkLink _ _ _ _ _ _ _ _) as [[? ?] ?].
      destruct (grabMore _ _ _ _ _ _ _) as [? ?]. by eexists.
    + destruct (checkLink _ _ _ _ _ _ _ _) as [[? ?] ?].
      destruct (grabMore _ _ _ _ _ _ _) as [? ?]. by eexists.
    + destruct (checkLink _ _ _ _ _ _ _ _) as [[? ?] ?].
      destruct (grabMore _ _ _ _ _ _ _) as [? ?]. by eexists.
Qed.

(** ** The frontier *)

(** With a smaller cap the extraction admits a prefix of what it admits
    with a larger one: as many links as fit under the cap. *)
Lemma grabLoop_withCap m' cfg w k sourceUrl items explored grabbed explored' grabbed' :
  length explored < MAX_NUM_LINKS_TO_FOLLOW cfg →
  MAX_NUM_LINKS_TO_FOLLOW cfg ≤ m' →
  grabLoop (withCap m' cfg) w k sourceUrl items explored grabbed
  = (explored', Ok grabbed') →
  grabLoop cfg w k sourceUrl items explored grabbed
  = (take (MAX_NUM_LINKS_TO_FOLLOW cfg) explored',
     Ok (take (length grabbed + (MAX_NUM_LINKS_TO_FOLLOW cfg - length explored))
           grabbed')).
Proof.
  set (M := MAX_NUM_LINKS_TO_FOLLOW cfg).
  revert explored grabbed.
  induction items as [|[a restore|e] items IH];
    intros explored grabbed Hlt Hle; simpl.
  - intros [= <- <-]. by rewrite !take_ge by lia.
  - destruct (evaluateAnchor explored a) as [[text u]|]; [|by apply IH].
    change (sourcePageScreenshot (withCap m' cfg) w k u restore)
      with (sourcePageScreenshot cfg w k u restore).
    destruct (sourcePageScreenshot cfg w k u restore) as [shot|err]; [|done].
    set (link := addScreenshotResult shot _).
    assert (length (explored ++ [u]) = S (length explored)) as Hlen.
    { rewrite length_app. simpl. lia. }
    fold M. destruct (M <=? length (explored ++ [u])) eqn:Hcap.
    + apply Nat.leb_le in Hcap.
      destruct (m' <=? length (explored ++ [u])) eqn:Hcap'.
      * intros [= <- <-]. rewrite !take_ge; [done| |lia].
        rewrite length_app. simpl. lia.
      * intros Hrec.
        apply grabLoop_post in Hrec as (new & -> & _ & _ & _ & Hres).
        destruct (Hres grabbed' eq_refl) as (links & -> & _ & _).
        f_equal; [|f_equal].
        -- rewrite take_app_length'; [done|lia].
        -- rewrite take_app_length'; [done|]. rewrite length_app. simpl. lia.
    + apply Nat.leb_gt in Hcap.
      assert ((m' <=? length (explored ++ [u])) = false) as ->
        by (apply Nat.leb_gt; lia).
      intros Hrec. apply IH in Hrec; [|lia..]. rewrite Hrec.
      do 3 f_equal. rewrite length_app. simpl. lia.
  - done.
Qed.

(** C5, as the code has it. In every state of the loop the explored URLs
    are the seeds followed by discovered URLs that are pairwise different
    and different from every seed; the URLs of the report entries and of the
    queue together are taken from them in order, so they hold a URL twice
    only if the seed list does; the number of explored URLs is at most the
    cap, or the number of seeds when that is larger. An extraction started
    below the cap admits exactly the first links, of those it would admit
    under a larger cap, that bring the explored URLs to the cap. *)
Theorem frontier_dedup_and_cap cfg w st :
  reachable cfg w st →
  let M := MAX_NUM_LINKS_TO_FOLLOW cfg in
  let queued :=
    map url (entries (brokenLinkCheckerReport st)) ++ map url (synLinks st) in
  (∃ discovered,
     exploredUrls st = URL_LIST cfg ++ discovered
     ∧ NoDup discovered
     ∧ (∀ u, u ∈ discovered → u ∉ URL_LIST cfg)
     ∧ queued `sublist_of` URL_LIST cfg ++ discovered)
  ∧ (NoDup (URL_LIST cfg) → NoDup queued)
  ∧ length (exploredUrls st) ≤ length (URL_LIST cfg) `max` M
  ∧ (length (URL_LIST cfg) ≤ M → length (exploredUrls st) ≤ M)
  ∧ (∀ k nav_url m' explored' grabbed',
       length (exploredUrls st) < M → M ≤ m' →
       grabLinks (withCap m' cfg) w k nav_url (exploredUrls st)
       = (explored', Ok grabbed') →
       grabLinks cfg w k nav_url (exploredUrls st)
       = (take M explored', Ok (take (M - length (exploredUrls st)) grabbed'))).
Proof.
  intros Hr M queued.
  destruct (reachable_frontier _ _ _ Hr)
    as (disc & enq & Hex & Hnd & Hns & Hnav & Hsub & Hlen).
  destruct (reachable_entries _ _ _ Hr) as [Hent _].
  assert (queued `sublist_of` URL_LIST cfg ++ disc) as Hq.
  { transitivity (navigatedUrls (trace st) ++ map url (synLinks st)).
    - by apply sublist_app.
    - rewrite Hnav. by apply sublist_app. }
  split_and!.
  - by exists disc.
  - intros Hseeds. eapply sublist_NoDup; [|exact Hq].
    apply NoDup_app. split_and!; [done| |done].
    intros u Hu Hu'. by apply Hns in Hu'.
  - done.
  - fold M in Hlen. lia.
  - intros k nav_url m' explored' grabbed' Hlt Hle Hgrab.
    unfold grabLinks in *. by apply grabLoop_withCap in Hgrab.
Qed.

(** ** The statements on the crawls of [Scenario] *)

Lemma setup_step_Scenario :
  iteration Scenario.cfg Scenario.world (setup Scenario.cfg) Run.seedLink []
  = Ok Run.afterSeed.
Proof. by vm_compute. Qed.

Lemma status_400_boundary_witness :
  ∃ link',
    url link' = Scenario.home
    ∧ statusCode link' = Some (SNum 200)
    ∧ statusText link' = Some "OK"
    ∧ failureReason link' = None.
Proof.
  destruct (status_400_boundary Scenario.cfg Scenario.world
              (setup Scenario.cfg) Run.seedLink [] Run.afterSeed 200 "OK")
    as (link' & _ & Hurl & Hc & Ht & Hlt & _).
  - apply reachable_setup.
  - reflexivity.
  - by vm_compute.
  - reflexivity.
  - lia.
  - exists link'. split_and!; [done..|]. apply Hlt. lia.
Defined.

Lemma falsy_status_recorded_as_broken_witness :
  ∃ link',
    statusCode link' = Some (SNum 0)
    ∧ failureReason link' = Some "Status code: 0 "
    ∧ synLinks Run.afterNoStatus = [].
Proof.
  destruct (falsy_status_recorded_as_broken Scenario.cfg Scenario.worldNoStatus
              (setup Scenario.cfg) Run.seedLink [] Run.afterNoStatus (SNum 0) "")
    as (link' & _ & _ & Hc & _ & Hf & _ & _ & _ & _ & _ & Hq).
  - apply reachable_setup.
  - reflexivity.
  - by vm_compute.
  - reflexivity.
  - reflexivity.
  - exists link'. split_and!; [done| |done]. rewrite Hf. by vm_compute.
Defined.

Lemma session_schedule_witness :
  ∃ session,
    trace Run.afterSeed
    = trace (setup Scenario.cfg) ++ session
      ++ [EvGoto Scenario.home (navigationOptions Scenario.cfg)
            (Scenario.respond 200 "OK")]
    ∧ (session = [] ↔ ¬ (positiveMultiple 1 5 ∧ 1 ≠ 5) ∧ 1 = 1).
Proof.
  destruct (session_schedule Scenario.cfg Scenario.world
              (setup Scenario.cfg) Run.seedLink [] Run.afterSeed)
    as (_ & (session & Htr & _ & _ & Hnone) & _).
  - apply reachable_setup.
  - reflexivity.
  - by vm_compute.
  - by exists session.
Defined.

Lemma exit_contract_witness :
  webCrawlerController Scenario.cfg Scenario.world
  = Rejected "1 broken link(s) detected. Failed to load url: https://example.com/missing. Status code: 404 Not Found".
Proof.
  destruct (exit_contract Scenario.cfg Scenario.world 5 Run.final)
    as (_ & _ & Hbroken).
  - reflexivity.
  - by vm_compute.
  - destruct Hbroken as (detail & Hd & ->); [by vm_compute|].
    vm_compute in Hd. by injection Hd as <-.
Defined.

Lemma seeds_processed_per_occurrence_witness :
  [Scenario.home; Scenario.home]
    `prefix_of` map url (entries (brokenLinkCheckerReport Run.finalTwice)).
Proof.
  destruct (seeds_processed_per_occurrence Scenario.cfgTwice Scenario.world
              5 Run.finalTwice) as (_ & _ & Hentries).
  - by vm_compute.
  - by apply Hentries.
Defined.

(** The seed given twice is recorded twice. *)
Example seed_twice_recorded_twice :
  map url (entries (brokenLinkCheckerReport Run.finalTwice))
  = [Scenario.home; Scenario.home;
     "https://example.com/a"; "https://example.com/missing"].
Proof. by vm_compute. Qed.

Lemma relaunch_failure_aborts_witness :
  webCrawlerController Scenario.cfgEvery Scenario.worldNoLaunch
  = Rejected "Error: Failed to launch the browser process".
Proof.
  destruct (relaunch_failure_aborts Scenario.cfgEvery Scenario.worldNoLaunch
              (setup Scenario.cfgEvery) Run.seedLink [] "index")
    as [Hthrow _].
  - reflexivity.
  - apply reachable_setup.
  - reflexivity.
  - by vm_compute.
  - by apply Hthrow.
Defined.

(** Two seeds under a cap of one: the explored URLs exceed the cap from the
    start. *)
Lemma seeds_exceed_cap :
  reachable Scenario.cfgTwoSeeds Scenario.world (setup Scenario.cfgTwoSeeds)
  ∧ MAX_NUM_LINKS_TO_FOLLOW Scenario.cfgTwoSeeds = 1
  ∧ length (exploredUrls (setup Scenario.cfgTwoSeeds)) = 2
  ∧ ¬ length (exploredUrls (setup Scenario.cfgTwoSeeds))
      ≤ MAX_NUM_LINKS_TO_FOLLOW Scenario.cfgTwoSeeds.
Proof.
  split_and!; [apply reachable_setup|done|done|]. simpl. lia.
Qed.

Lemma frontier_dedup_and_cap_witness :
  NoDup (map url (entries (brokenLinkCheckerReport Run.afterSeed))
         ++ map url (synLinks Run.afterSeed))
  ∧ length (exploredUrls Run.afterSeed) ≤ 5.
Proof.
  destruct (frontier_dedup_and_cap Scenario.cfg Scenario.world Run.afterSeed)
    as (_ & Hnd & _ & Hcap & _).
  - eapply reachable_iteration;
      [apply reachable_setup|reflexivity|apply setup_step_Scenario].
  - split.
    + apply Hnd. apply NoDup_singleton.
    + apply Hcap. simpl. lia.
Defined.

(** * Further properties *)

(** ** The request handler, for every configuration *)

(** X1. Whatever the configuration, a request is continued exactly when its
    resource type is [document], and aborted otherwise: neither the URL of
    the request nor the domain settings take part. *)
Theorem onRequest_policy cfg request :
  (onRequest cfg request = RequestContinue ↔ resourceType request = "document")
  ∧ (onRequest cfg request = RequestAbort ↔ resourceType request ≠ "document").
Proof.
  unfold onRequest.
  destruct (String.eqb_spec (resourceType request) "document") as [Heq|Hne].
  - destruct (_ && _); split; split; intros; done.
  - split; split; intros; done.
Qed.

(** ** The wait condition *)

(** X2. Every navigation of a crawl, to a link or to the blank page, is
    given [waitUntil: \['load', NETWORK_WAIT_CONDITION\]]. *)
Theorem every_navigation_waits cfg w st ev :
  reachable cfg w st →
  ev ∈ trace st →
  match ev with
  | EvRelaunch => True
  | EvReset opts | EvGoto _ opts _ =>
      opts !! "waitUntil"
      = Some (OStrings ["load"; waitConditionName (NETWORK_WAIT_CONDITION cfg)])
  end.
Proof.
  intros Hr Hev. pose proof (reachable_options _ _ _ _ Hr Hev) as Hopts.
  destruct ev as [|opts|u opts out]; [done|subst opts..];
    unfold navigationOptions; by simplify_map_eq.
Qed.

Lemma every_navigation_waits_witness :
  navigationOptions Scenario.cfg !! "waitUntil"
  = Some (OStrings ["load"; "domcontentloaded"]).
Proof.
  apply (every_navigation_waits Scenario.cfg Scenario.world Run.afterSeed
           (EvGoto Scenario.home (navigationOptions Scenario.cfg)
              (Scenario.respond 200 "OK"))).
  - eapply reachable_iteration;
      [apply reachable_setup|reflexivity|apply setup_step_Scenario].
  - vm_compute. left.
Defined.

(** ** getFileName *)

Section FileNameFacts.

Lemma append_nil_l (s : string) : "" +:+ s = s.
Proof. reflexivity. Qed.

Lemma append_cons (c : ascii) (s t : string) :
  String c s +:+ t = String c (s +:+ t).
Proof. reflexivity. Qed.

Lemma append_nil_r (s : string) : s +:+ "" = s.
Proof. induction s as [|c s IH]; [done|]. by rewrite append_cons, IH. Qed.

Lemma append_assoc (a b c : string) : (a +:+ b) +:+ c = a +:+ b +:+ c.
Proof. induction a as [|x a IH]; [done|]. by rewrite !append_cons, IH. Qed.

Lemma rev_app_append (a b c : string) :
  String.rev_app (a +:+ b) c = String.rev_app b (String.rev_app a c).
Proof.
  revert c. induction a as [|x a IH]; intros c; [done|].
  rewrite append_cons. simpl. apply IH.
Qed.

Lemma rev_app_rev_app (a b c : string) :
  String.rev_app (String.rev_app a b) c = String.rev_app b (a +:+ c).
Proof.
  revert b c. induction a as [|x a IH]; intros b c; [done|].
  simpl. rewrite IH. simpl. by rewrite append_cons.
Qed.

Lemma rev_involutive (s : string) : String.rev (String.rev s) = s.
Proof. unfold String.rev. rewrite rev_app_rev_app. simpl. apply append_nil_r. Qed.

Lemma rev_snoc (s : string) (c : ascii) :
  String.rev (s +:+ String c "") = String c (String.rev s).
Proof. unfold String.rev. by rewrite rev_app_append. Qed.

(** A string that ends with a slash loses it. *)
Lemma stripTrailingSlash_slash (s : string) :
  FileName.stripTrailingSlash (s +:+ "/") = s.
Proof.
  unfold FileName.stripTrailingSlash. rewrite rev_snoc. apply rev_involutive.
Qed.

Lemma match_not_slash {A} (c : ascii) (r : string) (f : string → A) (d : A) :
  c ≠ "/"%char →
  match String c r with
  | String "/"%char r' => f r'
  | _ => d
  end = d.
Proof.
  intros Hc. destruct c as [[] [] [] [] [] [] [] []]; try reflexivity.
  by destruct Hc.
Qed.

(** The last character of a non-empty safe string is safe. *)
Lemma rev_app_safe (s acc : string) :
  s ≠ "" → fileNameSafe s = true →
  ∃ c r, String.rev_app s acc = String c r ∧ FileName.allowed c = true.
Proof.
  revert acc. induction s as [|x s IH]; intros acc Hne Hsafe; [done|].
  simpl in Hsafe. apply andb_prop in Hsafe as [Hx Hs]. simpl.
  destruct s as [|y s'] eqn:Hs'.
  - simpl. by exists x, acc.
  - apply IH; done.
Qed.

(** A string that ends with a safe character keeps its end. *)
Lemma stripTrailingSlash_safe (s name : string) :
  name ≠ "" → fileNameSafe name = true →
  FileName.stripTrailingSlash (s +:+ name) = s +:+ name.
Proof.
  intros Hne Hsafe. unfold FileName.stripTrailingSlash, String.rev.
  rewrite rev_app_append.
  destruct (rev_app_safe name (String.rev_app s "") Hne Hsafe)
    as (c & r & -> & Hc).
  apply match_not_slash. by intros ->.
Qed.

Lemma lastSegmentFrom_safe (cur name : string) :
  fileNameSafe name = true →
  FileName.lastSegmentFrom cur name = cur +:+ name.
Proof.
  revert cur. induction name as [|c name IH]; intros cur Hsafe; simpl.
  - by rewrite append_nil_r.
  - simpl in Hsafe. apply andb_prop in Hsafe as [Hc Hs].
    destruct (Ascii.eqb_spec c "/") as [-> |Hne]; [done|].
    rewrite IH by done. by rewrite append_assoc.
Qed.

Lemma lastSegmentFrom_slash (cur dir rest : string) :
  FileName.lastSegmentFrom cur (dir +:+ "/" +:+ rest)
  = FileName.lastSegment rest.
Proof.
  revert cur. induction dir as [|c dir IH]; intros cur.
  - done.
  - rewrite append_cons. simpl. by destruct (Ascii.eqb c "/").
Qed.

Lemma keepAllowed_safe (s : string) :
  fileNameSafe (FileName.keepAllowed s) = true.
Proof.
  induction s as [|c s IH]; [done|]. simpl.
  destruct (FileName.allowed c) eqn:Hc; [|done]. simpl. by rewrite Hc.
Qed.

Lemma keepAllowed_id (s : string) :
  fileNameSafe s = true → FileName.keepAllowed s = s.
Proof.
  induction s as [|c s IH]; [done|]. simpl.
  intros [Hc Hs]%andb_prop. rewrite Hc. by rewrite IH.
Qed.

Lemma truthyStr_true (s : string) : Js.truthyStr s = true ↔ s ≠ "".
Proof.
  unfold Js.truthyStr. destruct (String.eqb_spec s ""); split; done.
Qed.

Lemma includes_char (a c : ascii) (s : string) :
  Js.includes (String c s) (String a "")
  = bool_decide (a = c) || Js.includes s (String a "").
Proof.
  change (Js.includes (String c s) (String a ""))
    with (String.prefix (String a "") (String c s) || Js.includes s (String a "")).
  f_equal. cbn [String.prefix].
  destruct (ascii_dec a c) as [Heq|Hne].
  - rewrite bool_decide_eq_true_2 by done. by destruct s.
  - by rewrite bool_decide_eq_false_2.
Qed.

End FileNameFacts.

(** [getFileName] throws what the URL constructor throws, and only that. *)
Lemma getFileName_Throw (pathnameOf : string → Exc string) (url e : string) :
  getFileName pathnameOf url = Throw e
  ↔ url ≠ "" ∧ pathnameOf url = Throw e.
Proof.
  unfold getFileName. destruct (Js.truthyStr url) eqn:Hu; simpl.
  - apply truthyStr_true in Hu.
    destruct (pathnameOf url) as [p|e']; simpl.
    + split; [done|]. by intros [_ ?].
    + split; [by intros [= ->]|]. by intros [_ [= ->]].
  - split; [done|]. intros [Hne _].
    apply truthyStr_true in Hne. congruence.
Qed.

(** X3. [getFileName] answers [loaded] for the empty URL without parsing
    it; for another URL it throws exactly what the URL constructor throws,
    and nothing else; a URL whose path is empty or the single slash gives
    [index]. *)
Theorem getFileName_edges (pathnameOf : string → Exc string) (url : string) :
  (url = "" → getFileName pathnameOf url = Ok "loaded")
  ∧ (∀ e, getFileName pathnameOf url = Throw e
          ↔ url ≠ "" ∧ pathnameOf url = Throw e)
  ∧ (url ≠ "" → pathnameOf url = Ok "" ∨ pathnameOf url = Ok "/" →
     getFileName pathnameOf url = Ok "index").
Proof.
  split_and!.
  - by intros ->.
  - intros e. apply getFileName_Throw.
  - intros Hne%truthyStr_true Hp. unfold getFileName. rewrite Hne. simpl.
    by destruct Hp as [-> | ->].
Qed.

(** X4. A file name returned by [getFileName] holds only letters, digits
    and the characters [-_.!*'()]: in particular no slash and no space. *)
Theorem getFileName_safe (pathnameOf : string → Exc string) (url fileName : string) :
  getFileName pathnameOf url = Ok fileName →
  fileNameSafe fileName = true
  ∧ Js.includes fileName "/" = false
  ∧ Js.includes fileName " " = false.
Proof.
  intros Hf.
  assert (fileNameSafe fileName = true) as Hsafe.
  { unfold getFileName in Hf. destruct (negb (Js.truthyStr url)).
    - injection Hf as <-. reflexivity.
    - destruct (pathnameOf url) as [p|]; [|done]. simpl in Hf.
      injection Hf as <-.
      destruct (Js.truthyStr _); [apply keepAllowed_safe|done]. }
  split; [done|].
  clear Hf. induction fileName as [|c s IH]; [done|].
  simpl in Hsafe. apply andb_prop in Hsafe as [Hc Hs].
  destruct (IH Hs) as [IH1 IH2].
  rewrite !includes_char, IH1, IH2, !orb_false_r.
  split; apply bool_decide_eq_false; by intros <-.
Qed.

Lemma getFileName_safe_witness :
  fileNameSafe "d-e_f.html" = true
  ∧ Js.includes "d-e_f.html" "/" = false
  ∧ Js.includes "d-e_f.html" " " = false.
Proof.
  apply (getFileName_safe (λ _, Ok "/a/b c/d-e_f$.html/") "x").
  reflexivity.
Defined.

(** X5. For a URL whose path ends in a slash and a non-empty name of kept
    characters, with or without one more slash after it, [getFileName]
    returns that name. *)
Theorem getFileName_basename (pathnameOf : string → Exc string)
    (url dir name : string) :
  url ≠ "" →
  name ≠ "" →
  fileNameSafe name = true →
  pathnameOf url = Ok (dir +:+ "/" +:+ name)
  ∨ pathnameOf url = Ok (dir +:+ "/" +:+ name +:+ "/") →
  getFileName pathnameOf url = Ok name.
Proof.
  intros Hu%truthyStr_true Hne Hsafe Hp. unfold getFileName. rewrite Hu. simpl.
  assert (∃ p, pathnameOf url = Ok p
               ∧ FileName.stripTrailingSlash p = dir +:+ "/" +:+ name)
    as (p & -> & Hstrip).
  { destruct Hp as [Hp|Hp]; eexists; (split; [exact Hp|]).
    - rewrite <- append_assoc. by apply stripTrailingSlash_safe.
    - rewrite <- !append_assoc. rewrite stripTrailingSlash_slash.
      by rewrite append_assoc. }
  simpl. rewrite Hstrip.
  assert (Js.truthyStr (dir +:+ "/" +:+ name) = true) as ->.
  { apply truthyStr_true. by destruct dir. }
  unfold FileName.lastSegment. rewrite lastSegmentFrom_slash.
  unfold FileName.lastSegment. rewrite lastSegmentFrom_safe by done.
  rewrite append_nil_l. by rewrite keepAllowed_id.
Qed.

Lemma getFileName_basename_witness :
  getFileName Scenario.pathnameOf "https://example.com/docs/page-1.html/"
  = Ok "page-1.html".
Proof.
  apply (getFileName_basename Scenario.pathnameOf
           "https://example.com/docs/page-1.html/" "/docs" "page-1.html").
  - done.
  - done.
  - reflexivity.
  - right. reflexivity.
Defined.

(** ** Navigations without a response *)

(** X6. A dequeued link whose navigation throws is recorded as it was
    dequeued plus the thrown value as failure reason; one whose navigation
    resolves without a response is recorded with the failure reason
    [Received null or undefined response]. In both cases no status field is
    set, no destination screenshot is added, [brokenLinkError] names the URL,
    and no link is extracted: the queue loses its head and the explored URLs
    stay. *)
Theorem navigation_failure_recorded cfg w st link rest st' :
  iteration cfg w st link rest = Ok st' →
  let k := S (count st) in
  (∀ e, gotoUrl w k (getUrl link) = NavThrows e →
     brokenLinkCheckerReport st'
     = recordLink w k (withFailureReason e link) (brokenLinkCheckerReport st)
     ∧ brokenLinkError st'
       = Some ("Failed to load url: " +:+ getUrl link +:+ ". " +:+ e)
     ∧ exploredUrls st' = exploredUrls st
     ∧ synLinks st' = rest)
  ∧ (gotoUrl w k (getUrl link) = NavResolves None →
     brokenLinkCheckerReport st'
     = recordLink w k
         (withFailureReason "Received null or undefined response" link)
         (brokenLinkCheckerReport st)
     ∧ brokenLinkError st'
       = Some ("Failed to receive network response for url: " +:+ getUrl link)
     ∧ exploredUrls st' = exploredUrls st
     ∧ synLinks st' = rest).
Proof.
  intros Hit k.
  apply iteration_Ok in Hit as (fileName & _ & _ & ->). fold k.
  split.
  - intros e ->. rewrite checkLink_response, grabMore_invalid by done. done.
  - intros ->. rewrite checkLink_response, grabMore_invalid by done. done.
Qed.

Lemma navigation_failure_recorded_witness :
  brokenLinkError Outage.afterDown
  = Some "Failed to load url: https://example.com/. Error: net::ERR_NAME_NOT_RESOLVED"
  ∧ synLinks Outage.afterDown = [].
Proof.
  destruct (navigation_failure_recorded Scenario.cfg Outage.worldDown
              (setup Scenario.cfg) Run.seedLink [] Outage.afterDown)
    as [Hthrow _]; [by vm_compute|].
  destruct (Hthrow "Error: net::ERR_NAME_NOT_RESOLVED" eq_refl)
    as (_ & Hb & _ & Hq).
  split; [|done]. rewrite Hb. by vm_compute.
Defined.

(** ** Screenshots and the classification *)

(** X7. The screenshots leave the classification alone: for the same
    outcome of the navigation, the response, [brokenLinkError] and every
    field of the link but its screenshots are the same whatever the three
    capture settings are and whatever the screenshot sink does; and at most
    one screenshot result is added to the link. *)
Theorem classification_ignores_screenshots
    cfg cfg' w w' k k' fileName fileName' nav_url out link brokenLinkError :
  let a := checkLink cfg w k fileName nav_url out link brokenLinkError in
  let b := checkLink cfg' w' k' fileName' nav_url out link brokenLinkError in
  a.1.1 = b.1.1
  ∧ a.2 = b.2
  ∧ withoutScreenshots a.1.2 = withoutScreenshots b.1.2
  ∧ (∃ added, screenshots a.1.2 = screenshots link ++ added ∧ length added ≤ 1).
Proof.
  unfold checkLink, classify.
  destruct out as [e|[r|]]; simpl.
  - split_and!; [done..|]. exists []. split; [by rewrite app_nil_r|simpl; lia].
  - destruct (statusTruthy (status r) && statusBelow400 (status r)); simpl.
    + destruct (CAPTURE_DESTINATION_PAGE_SCREENSHOT_ON_SUCCESS cfg),
               (CAPTURE_DESTINATION_PAGE_SCREENSHOT_ON_SUCCESS cfg'); simpl;
        (split_and!; [done..|]);
        first [eexists [_]; split; [done|simpl; lia]
              |exists []; split; [by rewrite app_nil_r|simpl; lia]].
    + destruct (CAPTURE_DESTINATION_PAGE_SCREENSHOT_ON_FAILURE cfg),
               (CAPTURE_DESTINATION_PAGE_SCREENSHOT_ON_FAILURE cfg'); simpl;
        (split_and!; [done..|]);
        first [eexists [_]; split; [done|simpl; lia]
              |exists []; split; [by rewrite app_nil_r|simpl; lia]].
  - split_and!; [done..|]. exists []. split; [by rewrite app_nil_r|simpl; lia].
Qed.

(** ** The extraction *)

Lemma prefix_cons (x y : ascii) (a s : string) :
  String.prefix (String x a) (String y s)
  = if ascii_dec x y then String.prefix a s else false.
Proof. reflexivity. Qed.

Lemma prefix_append (a b s : string) :
  String.prefix (a +:+ b) s = true → String.prefix a s = true.
Proof.
  revert s. induction a as [|x a IH]; intros s; [by destruct s|].
  rewrite append_cons. destruct s as [|y s]; [done|].
  rewrite !prefix_cons. destruct (ascii_dec x y); [apply IH|done].
Qed.

(** The second test of line 93 adds nothing to the first. *)
Lemma grabCondition_http explored u :
  grabCondition explored u = true
  ↔ u ≠ "" ∧ (u ∉ explored) ∧ Js.startsWith u "http" = true.
Proof.
  unfold grabCondition, Js.arrayIncludes, Js.startsWith.
  rewrite !andb_true_iff, negb_true_iff, bool_decide_eq_false, orb_true_iff.
  rewrite Nat.ltb_lt. split.
  - intros [[Hlen Hin] Hp]. split_and!; [by destruct u; [simpl in Hlen; lia|]|done|].
    destruct Hp as [Hp|Hp]; [done|]. by apply (prefix_append "http" "s").
  - intros (Hne & Hin & Hp). split_and!; [|done|by left].
    destruct u; [done|simpl; lia].
Qed.

Section ExtractionFacts.

Variable cfg : Config.
Variable w : World.

(** What every link grabbed from a page looks like. *)
Lemma grabLoop_shape k sourceUrl items (P : SyntheticsLink → Prop)
    explored grabbed explored' grabbed' :
  (∀ text u shot,
     (CAPTURE_SOURCE_PAGE_SCREENSHOT cfg = false → shot = None) →
     u ≠ "" → Js.startsWith u "http" = true → u ∉ explored →
     P (addScreenshotResult shot
          (withText text (withParentUrl sourceUrl (newSyntheticsLink u))))) →
  Forall P grabbed →
  grabLoop cfg w k sourceUrl items explored grabbed = (explored', Ok grabbed') →
  Forall P grabbed'.
Proof.
  intros HP. revert grabbed.
  assert (∀ cur grabbed,
            (∀ u, u ∈ explored → u ∈ cur) →
            Forall P grabbed →
            grabLoop cfg w k sourceUrl items cur grabbed = (explored', Ok grabbed') →
            Forall P grabbed') as Hgen.
  { induction items as [|[a restore|e] items IH]; intros cur grabbed Hsub Hg; simpl.
    - by intros [= _ <-].
    - destruct (evaluateAnchor cur a) as [[text u]|] eqn:Hev; [|by apply IH].
      apply evaluateAnchor_Some in Hev as (_ & Hfresh & Hcond).
      apply grabCondition_http in Hcond as (Hne & _ & Hhttp).
      assert (u ∉ explored) as Hu by (intros Hin; by apply Hfresh, Hsub).
      destruct (sourcePageScreenshot cfg w k u restore) as [shot|err] eqn:Hshot;
        [|done].
      assert (CAPTURE_SOURCE_PAGE_SCREENSHOT cfg = false → shot = None) as Hnone.
      { intros Hoff. unfold sourcePageScreenshot in Hshot. rewrite Hoff in Hshot.
        congruence. }
      assert (Forall P (grabbed ++
                [addScreenshotResult shot
                   (withText text (withParentUrl sourceUrl (newSyntheticsLink u)))]))
        as Hg'.
      { apply Forall_app. split; [done|]. apply Forall_singleton.
        apply HP; auto. }
      destruct (_ <=? _).
      + by intros [= _ <-].
      + apply IH; [|done]. intros v Hv. apply elem_of_app. left. by apply Hsub.
    - done. }
  intros grabbed. by apply Hgen.
Qed.

(** With the source-page screenshots off, only a page evaluation can make
    the extraction throw. *)
Lemma grabLoop_returns k sourceUrl items explored grabbed :
  CAPTURE_SOURCE_PAGE_SCREENSHOT cfg = false →
  Forall (λ d, evaluatesAnchor d = true) items →
  ∃ grabbed', (grabLoop cfg w k sourceUrl items explored grabbed).2 = Ok grabbed'.
Proof.
  intros Hoff Hitems. revert explored grabbed.
  induction Hitems as [|[a restore|e] items Hd _ IH]; intros explored grabbed; simpl.
  - by eexists.
  - destruct (evaluateAnchor explored a) as [[text u]|]; [|apply IH].
    unfold sourcePageScreenshot. rewrite Hoff.
    destruct (_ <=? _); [by eexists|apply IH].
  - done.
Qed.

End ExtractionFacts.





(** ** The queue *)

Section QueueFacts.

Variable cfg : Config.
Variable w : World.

Local Abbreviation M := (MAX_NUM_LINKS_TO_FOLLOW cfg).

(** The guarded extraction, with the parent of the new links. *)
Lemma grabMore_parent k nav_url response explored queue explored' queue' :
  grabMore cfg w k nav_url response explored queue = (explored', queue') →
  ∃ new links,
    explored' = explored ++ new
    ∧ queue' = queue ++ links
    ∧ (∀ u, u ∈ new → u ∉ explored)
    ∧ (links = [] ∨ map url links = new)
    ∧ Forall (λ l, parentUrl l = Some nav_url) links.
Proof.
  intros Hg. pose proof Hg as Hpost.
  apply grabMore_post in Hpost
    as (new & links & -> & -> & _ & Hnew & _ & Hlinks & _).
  exists new, links. split_and!; [done..|].
  unfold grabMore, grabLinks in Hg.
  destruct (validStatus response && (length explored <? M)).
  - destruct (grabLoop _ _ _ _ _ _ _) as [e [more|err]] eqn:Hloop.
    + apply (grabLoop_shape cfg w k nav_url _
               (λ l, parentUrl l = Some nav_url)) in Hloop;
        [|done|constructor].
      destruct (0 <? length more); injection Hg as _ Hq.
      * apply app_inv_head in Hq. by subst.
      * rewrite <-(app_nil_r queue) in Hq at 1.
        apply app_inv_head in Hq. by subst.
    + injection Hg as _ Hq. rewrite <-(app_nil_r queue) in Hq at 1.
      apply app_inv_head in Hq. by subst.
  - injection Hg as _ Hq. rewrite <-(app_nil_r queue) in Hq at 1.
    apply app_inv_head in Hq. by subst.
Qed.

(** When no evaluation throws and the source-page screenshots are off,
    every explored URL gets its link. *)
Lemma grabMore_complete k nav_url response explored queue explored' queue' :
  CAPTURE_SOURCE_PAGE_SCREENSHOT cfg = false →
  Forall (λ d, evaluatesAnchor d = true) (pageAnchors w k) →
  grabMore cfg w k nav_url response explored queue = (explored', queue') →
  ∃ links, explored' = explored ++ map url links ∧ queue' = queue ++ links.
Proof.
  intros Hoff Hitems. unfold grabMore, grabLinks.
  destruct (validStatus response && (length explored <? M)).
  - destruct (grabLoop_returns cfg w k nav_url (pageAnchors w k) explored []
                Hoff Hitems) as [more Hmore].
    destruct (grabLoop _ _ _ _ _ _ _) as [e res] eqn:Hloop.
    simpl in Hmore. subst res.
    apply grabLoop_post in Hloop as (new & -> & _ & _ & _ & Hres).
    destruct (Hres more eq_refl) as (links & Hl & Hurl & _). simpl in Hl.
    subst more new. intros [= <- <-]. exists links. split; [done|].
    destruct (0 <? length links) eqn:Hpos; [done|].
    apply Nat.ltb_ge in Hpos. destruct links; [|simpl in Hpos; lia].
    by rewrite app_nil_r.
  - intros [= <- <-]. exists []. by rewrite !app_nil_r.
Qed.

Lemma grabMore_at_cap k nav_url response explored queue :
  M ≤ length explored →
  grabMore cfg w k nav_url response explored queue = (explored, queue).
Proof.
  intros Hcap. unfold grabMore.
  assert ((length explored <? M) = false) as -> by (apply Nat.ltb_ge; lia).
  by rewrite andb_false_r.
Qed.


(** When no extraction can throw, the known URLs are the explored URLs. *)
Lemma reachable_known st :
  CAPTURE_SOURCE_PAGE_SCREENSHOT cfg = false →
  (∀ k, Forall (λ d, evaluatesAnchor d = true) (pageAnchors w k)) →
  reachable cfg w st →
  knownUrls st = exploredUrls st.
Proof.
  intros Hoff Hitems.
  induction 1 as [|st link rest st' _ IH Hq Hit].
  - unfold knownUrls. simpl. rewrite map_map. simpl. by rewrite map_id.
  - apply iteration_Ok in Hit as (fileName & _ & _ & ->).
    unfold knownUrls in *. simpl.
    destruct (grabMore _ _ _ _ _ _ _) as [e q] eqn:Hg. simpl.
    apply grabMore_complete in Hg as (links & -> & ->); [|done..].
    rewrite <-IH, Hq, !navigatedUrls_app, navigatedUrls_sessionEvents, map_app.
    simpl. unfold getUrl. by rewrite <- !app_assoc.
Qed.

(** A report that refuses every link stays empty. *)
Lemma reachable_deaf st :
  (∀ k, reportAddLinkThrows w k = true) →
  reachable cfg w st →
  entries (brokenLinkCheckerReport st) = [].
Proof.
  intros Hdeaf. induction 1 as [|st link rest st' _ IH Hq Hit]; [done|].
  apply iteration_Ok in Hit as (fileName & _ & _ & ->). simpl.
  unfold recordLink. by rewrite Hdeaf.
Qed.

End QueueFacts.

(** X10. A turn of the loop takes the head of the queue and puts the links
    extracted from its page behind the links that were waiting, in the order
    of their discovery, each with the page as parent; the explored URLs grow
    at their end by URLs that were not explored; the counter grows by one. *)
Theorem discovered_links_join_the_back cfg w st link rest st' :
  iteration cfg w st link rest = Ok st' →
  ∃ discovered more,
    synLinks st' = rest ++ more
    ∧ exploredUrls st' = exploredUrls st ++ discovered
    ∧ (∀ u, u ∈ discovered → u ∉ exploredUrls st)
    ∧ (more = [] ∨ map url more = discovered)
    ∧ Forall (λ l, parentUrl l = Some (getUrl link)) more
    ∧ count st' = S (count st).
Proof.
  intros Hit. apply iteration_Ok in Hit as (fileName & _ & _ & ->). simpl.
  destruct (grabMore _ _ _ _ _ _ _) as [e q] eqn:Hg. simpl.
  apply grabMore_parent in Hg as (new & links & -> & -> & Hnew & Hlinks & Hp).
  by exists new, links.
Qed.

Lemma discovered_links_join_the_back_witness :
  ∃ more, synLinks Run.afterSeed = [] ++ more
          ∧ map url more = ["https://example.com/a"; "https://example.com/missing"].
Proof.
  destruct (discovered_links_join_the_back Scenario.cfg Scenario.world
              (setup Scenario.cfg) Run.seedLink [] Run.afterSeed)
    as (discovered & more & Hq & _).
  - by vm_compute.
  - exists more. split; [done|]. simpl in Hq. rewrite <-Hq. by vm_compute.
Defined.

(** X11. When no page evaluation throws and the source-page screenshots are
    off, a crawl that empties its queue has navigated to every explored URL,
    in the order in which the URLs were explored, and once each if the seeds
    are all different; when the report accepts every link, its entries are
    these URLs in this order. *)
Theorem crawl_covers_explored cfg w fuel st :
  CAPTURE_SOURCE_PAGE_SCREENSHOT cfg = false →
  (∀ k, Forall (λ d, evaluatesAnchor d = true) (pageAnchors w k)) →
  crawlLoop cfg w fuel (setup cfg) = Finished st →
  navigatedUrls (trace st) = exploredUrls st
  ∧ (NoDup (URL_LIST cfg) → NoDup (navigatedUrls (trace st)))
  ∧ ((∀ k, reportAddLinkThrows w k = false) →
     map url (entries (brokenLinkCheckerReport st)) = exploredUrls st).
Proof.
  intros Hoff Hitems Hfin.
  apply crawlLoop_reachable in Hfin as [Hr Hq]; [|apply reachable_setup].
  pose proof (reachable_known cfg w st Hoff Hitems Hr) as Hknown.
  unfold knownUrls in Hknown. rewrite Hq, app_nil_r in Hknown.
  split_and!; [done| |].
  - intros Hseeds. rewrite Hknown.
    destruct (reachable_frontier _ _ _ Hr) as (disc & _ & -> & Hnd & Hns & _).
    apply NoDup_app. split_and!; [done| |done].
    intros u Hu Hu'. by apply Hns in Hu'.
  - intros Hno. destruct (reachable_entries _ _ _ Hr) as [_ Heq].
    by rewrite Heq.
Qed.

Lemma crawl_covers_explored_witness :
  navigatedUrls (trace Run.final)
  = [Scenario.home; "https://example.com/a"; "https://example.com/missing"].
Proof.
  destruct (crawl_covers_explored Scenario.cfg Scenario.world 5 Run.final)
    as (-> & _ & _).
  - reflexivity.
  - intros [|[|k]]; simpl; repeat constructor.
  - by vm_compute.
  - by vm_compute.
Defined.



(** X13. Once the explored URLs are as many as the cap, or more, they never
    change again and nothing is queued any more: later turns only take links
    from the head of the queue, one per turn. *)
Theorem frontier_frozen_at_cap cfg w st st' :
  steps cfg w st st' →
  MAX_NUM_LINKS_TO_FOLLOW cfg ≤ length (exploredUrls st) →
  exploredUrls st' = exploredUrls st
  ∧ ∃ taken, synLinks st = taken ++ synLinks st'
             ∧ count st' = count st + length taken.
Proof.
  induction 1 as [st|st link rest st1 st2 Hq Hit _ IH]; intros Hcap.
  - split; [done|]. exists []. split; [done|simpl; lia].
  - assert (exploredUrls st1 = exploredUrls st ∧ synLinks st1 = rest
            ∧ count st1 = S (count st)) as (He & Hs & Hc).
    { apply iteration_Ok in Hit as (fileName & _ & _ & ->). simpl.
      by rewrite grabMore_at_cap. }
    destruct IH as (He2 & taken & Htaken & Hcount); [by rewrite He|].
    split; [by rewrite He2|].
    exists (link :: taken). rewrite Hs in Htaken. rewrite Hq, Htaken. simpl.
    split; [done|lia].
Qed.

Lemma steps_Tight :
  steps Outage.cfgTight Scenario.world Outage.afterTight Outage.finalTight.
Proof.
  eapply steps_next; [reflexivity|by vm_compute|apply steps_refl].
Qed.

Lemma frontier_frozen_at_cap_witness :
  exploredUrls Outage.finalTight = [Scenario.home; "https://example.com/a"]
  ∧ count Outage.finalTight = 2.
Proof.
  destruct (frontier_frozen_at_cap Outage.cfgTight Scenario.world
              Outage.afterTight Outage.finalTight) as (-> & taken & _ & _).
  - apply steps_Tight.
  - simpl. lia.
  - by vm_compute.
Defined.

(** ** The report counters *)

(** X14. In every state of the loop the broken links counted are at most
    the links checked, which are at most the links navigated to; when
    [addLink] never throws, the links checked are exactly the links
    navigated to. *)
Theorem report_counters cfg w st :
  reachable cfg w st →
  getTotalBrokenLinks (brokenLinkCheckerReport st)
  ≤ getTotalLinksChecked (brokenLinkCheckerReport st)
  ∧ getTotalLinksChecked (brokenLinkCheckerReport st) ≤ count st
  ∧ ((∀ k, reportAddLinkThrows w k = false) →
     getTotalLinksChecked (brokenLinkCheckerReport st) = count st).
Proof.
  intros Hr. unfold getTotalBrokenLinks, getTotalLinksChecked.
  destruct (reachable_entries _ _ _ Hr) as [Hsub Heq].
  rewrite (reachable_count _ _ _ Hr).
  split_and!.
  - apply length_filter.
  - apply sublist_length in Hsub. by rewrite length_map in Hsub.
  - intros Hno. by rewrite <-(Heq Hno), length_map.
Qed.

Lemma report_counters_witness :
  getTotalLinksChecked (brokenLinkCheckerReport Run.afterSeed) = 1.
Proof.
  destruct (report_counters Scenario.cfg Scenario.world Run.afterSeed)
    as (_ & _ & ->).
  - eapply reachable_iteration;
      [apply reachable_setup|reflexivity|apply setup_step_Scenario].
  - done.
  - reflexivity.
Defined.

(** X15. When [addLink] throws for every link, the report stays empty and a
    crawl that empties its queue returns normally, whatever the statuses of
    the links were: a link that is not recorded is not counted. *)
Theorem deaf_report_never_fails cfg w fuel st :
  (∀ k, reportAddLinkThrows w k = true) →
  firstPage w = Ok () →
  crawlLoop cfg w fuel (setup cfg) = Finished st →
  entries (brokenLinkCheckerReport st) = []
  ∧ webCrawlerController cfg w = Resolved.
Proof.
  intros Hdeaf Hpage Hfin.
  rewrite (webCrawlerController_Finished _ _ _ _ Hpage Hfin).
  apply crawlLoop_reachable in Hfin as [Hr _]; [|apply reachable_setup].
  pose proof (reachable_deaf cfg w st Hdeaf Hr) as Hnil.
  split; [done|]. apply verdict_clean.
  unfold getTotalBrokenLinks. by rewrite Hnil.
Qed.

Lemma deaf_report_never_fails_witness :
  lastFailureDetail (trace Outage.finalDeaf)
  = Some "Failed to load url: https://example.com/missing. Status code: 404 Not Found"
  ∧ webCrawlerController Scenario.cfg Outage.worldDeafReport = Resolved.
Proof.
  split; [by vm_compute|].
  apply (deaf_report_never_fails Scenario.cfg Outage.worldDeafReport 5
           Outage.finalDeaf).
  - done.
  - reflexivity.
  - by vm_compute.
Defined.

(** ** What makes a turn throw *)


(** X17. When the link at the head of the queue has a URL that the URL
    constructor rejects, be it a seed or a discovered link, the whole crawl
    throws what the constructor threw, and the link is not navigated to. *)
Theorem unparsable_link_rejects_crawl cfg w st link rest e :
  firstPage w = Ok () →
  reachable cfg w st →
  synLinks st = link :: rest →
  getUrl link ≠ "" →
  urlPathname w (getUrl link) = Throw e →
  webCrawlerController cfg w = Rejected e.
Proof.
  intros Hpage Hr Hq Hne Hthrow.
  assert (iteration cfg w st link rest = Throw e) as Hit.
  { unfold iteration.
    assert (getFileName (urlPathname w) (getUrl link) = Throw e) as ->; [|done].
    by apply getFileName_Throw. }
  apply (webCrawlerController_Aborted _ _ (count st + 1)); [done|].
  rewrite (reachable_crawlLoop _ _ _ Hr). simpl. by rewrite Hq, Hit.
Qed.

Lemma unparsable_link_rejects_crawl_witness :
  webCrawlerController Outage.cfgBadSeed Scenario.world
  = Rejected "TypeError: Invalid URL".
Proof.
  apply (unparsable_link_rejects_crawl Outage.cfgBadSeed Scenario.world
           (setup Outage.cfgBadSeed) (newSyntheticsLink "example.com") []).
  - reflexivity.
  - apply reachable_setup.
  - reflexivity.
  - done.
  - reflexivity.
Defined.

(** ** A clean page for every link *)

Lemma backToBack_snoc_session tr ev g :
  backToBack tr = false →
  (ev = EvRelaunch ∨ ∃ opts, ev = EvReset opts) →
  backToBack (tr ++ [ev; g]) = false.
Proof.
  intros Htr Hev. induction tr as [|e tr IH].
  - by destruct Hev as [-> | [opts ->]], g.
  - destruct e as [|opts|u opts out].
    + apply IH, Htr.
    + apply IH, Htr.
    + destruct tr as [|e' tr'].
      * by destruct Hev as [-> | [opts' ->]], g.
      * destruct e' as [|opts'|u' opts' out'].
        -- apply IH, Htr.
        -- apply IH, Htr.
        -- discriminate Htr.
Qed.

(** X18. No two links are navigated to back to back: between the
    navigations to two links the page is always reset to the blank page or
    the browser relaunched. *)
Theorem page_renewed_between_links cfg w st :
  reachable cfg w st →
  backToBack (trace st) = false.
Proof.
  intros Hr.
  assert (backToBack (trace st) = false ∧ (count st = 0 → trace st = []))
    as [H _]; [|done].
  induction Hr as [|st link rest st' _ [IH Hzero] Hq Hit]; [done|].
  apply iteration_Ok in Hit as (fileName & _ & _ & ->).
  split; [|done].
  cbn [trace]. unfold sessionAction.
  destruct (_ && _); [|destruct (Nat.eqb_spec (S (count st)) 1) as [Hone|Hmore]];
    cbn [negb sessionEvents app].
  - apply backToBack_snoc_session; [done|by left].
  - rewrite Hzero by lia. done.
  - apply backToBack_snoc_session; [done|right; by eexists].
Qed.

Lemma page_renewed_between_links_witness :
  backToBack (trace Run.final) = false ∧ length (trace Run.final) = 5.
Proof.
  split; [|by vm_compute].
  apply (page_renewed_between_links Scenario.cfg Scenario.world).
  apply (crawlLoop_reachable Scenario.cfg Scenario.world 5 (setup Scenario.cfg)).
  - apply reachable_setup.
  - by vm_compute.
Defined.
